(** * Verification of tools/gen.DIR.txt.py

    A shallow embedding of the directory-tree renderer: the ignore sets,
    [should_ignore], [list_children_sorted], [render_tree] with its inner
    [walk], [detect_repo_root] and the text that [main] writes.

    Modelling decisions.
    - The file system is a finite tree of [node]s.  A directory carries the
      outcome of enumerating it ([None]: the enumeration succeeds and yields
      its entries in the stored order; [Some e]: [Path.iterdir] raises [e])
      next to the entries it holds on disk.  An [Opaque] entry is one that
      [stat] cannot examine: [Path.is_dir] and [Path.exists] raise for it,
      as they do for every error of [stat] other than a missing entry.
      Symbolic links and the host recursion limit are outside the model.
    - A Python [str] is held as the bytes of its UTF-8 encoding.  The
      whitespace that [str.strip] and [str.rstrip] remove is the whitespace
      of Unicode, recognised in that encoding.  [str.lower] and the code
      points by which Python compares two strings belong to the host: they
      are the parameters [lower] and [code_points]; so are [Path.resolve],
      which may raise, and the [Path] constructor.
    - Python exceptions are the [Raise] case of [result]; the [lines] buffer
      that [walk] mutates is threaded explicitly. *)

From Stdlib Require Import ZArith NArith Lia String Ascii List Permutation.
From Stdlib Require Import Sorted.
From stdpp Require Import base decidable strings gmap.
Import ListNotations.

Local Open Scope string_scope.
Local Open Scope list_scope.

(** ** Exceptions and results *)

Inductive exn : Type :=
| PermissionError
| FileNotFoundError
| NotADirectoryError
| OSError
| CalledProcessError
| RuntimeError
| RecursionError.

Inductive result (A : Type) : Type :=
| Ok (a : A)
| Raise (e : exn).

Arguments Ok {A} a.
Arguments Raise {A} e.

#[global] Instance exn_eq_dec : EqDecision exn.
Proof. solve_decision. Defined.

#[global] Instance result_eq_dec {A : Type} `{EqDecision A} :
  EqDecision (result A).
Proof. solve_decision. Defined.

(** Sequencing: an exception raised by the first computation propagates. *)
#[global] Instance result_ret : MRet result := fun _ a => Ok a.

#[global] Instance result_bind : MBind result := fun _ _ k r =>
  match r with
  | Ok a => k a
  | Raise e => Raise e
  end.

(** ** The file system *)

Set Warnings "-register-all".

Inductive node : Type :=
| File (name : string)
| Dir (name : string) (failure : option exn) (entries : list node)
| Opaque (name : string) (failure : exn).

(** [path.name] *)
Definition name (path : node) : string :=
  match path with
  | File n => n
  | Dir n _ _ => n
  | Opaque n _ => n
  end.

(** [path.is_dir()]: it raises what [stat] raises, apart from the errors
    that stand for a missing entry. *)
Definition is_dir (path : node) : result bool :=
  match path with
  | File _ => Ok false
  | Dir _ _ _ => Ok true
  | Opaque _ e => Raise e
  end.

(** [list(p.iterdir())] *)
Definition iterdir (p : node) : result (list node) :=
  match p with
  | File _ => Raise NotADirectoryError
  | Dir _ (Some e) _ => Raise e
  | Dir _ None entries => Ok entries
  | Opaque _ e => Raise e
  end.

(** ** Module constants *)

Definition DEFAULT_IGNORE_DIRS : gset string :=
  list_to_set
    [ ".git"; ".vscode"; ".venv"; "venv"; "__pycache__"; "node_modules";
      "dist"; "build"; ".pytest_cache"; ".mypy_cache"; ".ruff_cache" ].

Definition DEFAULT_IGNORE_FILES : gset string :=
  list_to_set [ ".DS_Store" ].

Definition INCLUDE_HIDDEN : bool := true.

(** ** Helpers of the Python runtime *)

(** [s.startswith(p)] *)
Definition startswith (s p : string) : bool := String.prefix p s.

(** [[f(x) for x in l]], where [f] may raise. *)
Fixpoint map_m {A B : Type} (f : A -> result B) (l : list A)
  : result (list B) :=
  match l with
  | [] => Ok []
  | x :: l' =>
      match f x with
      | Raise e => Raise e
      | Ok y =>
          match map_m f l' with
          | Raise e => Raise e
          | Ok ys => Ok (y :: ys)
          end
      end
  end.

(** [[x for x in l if f(x)]], where [f] may raise. *)
Fixpoint filter_m {A : Type} (f : A -> result bool) (l : list A)
  : result (list A) :=
  match l with
  | [] => Ok []
  | x :: l' =>
      match f x with
      | Raise e => Raise e
      | Ok keep =>
          match filter_m f l' with
          | Raise e => Raise e
          | Ok xs => Ok (if keep then x :: xs else xs)
          end
      end
  end.

(** Python's order of two strings, on their code points. *)
Fixpoint points_leb (a b : list N) : bool :=
  match a, b with
  | [], _ => true
  | _ :: _, [] => false
  | x :: a', y :: b' => (x <? y)%N || ((x =? y)%N && points_leb a' b')
  end.

(** Python's order of the tuples that serve as sort keys: the first
    components, then the strings. *)
Definition key_leb (a b : Z * list N) : bool :=
  (fst a <? fst b)%Z || ((fst a =? fst b)%Z && points_leb (snd a) (snd b)).

(** A stable sort: an entry goes in front of the first entry whose key is
    not smaller. *)
Fixpoint insert_by {A : Type} (key : A -> Z * list N) (x : A) (l : list A)
  : list A :=
  match l with
  | [] => [x]
  | y :: l' =>
      if key_leb (key x) (key y) then x :: y :: l'
      else y :: insert_by key x l'
  end.

Fixpoint sort_by {A : Type} (key : A -> Z * list N) (l : list A) : list A :=
  match l with
  | [] => []
  | x :: l' => insert_by key x (sort_by key l')
  end.

(** [l.sort(key=key)]: the key of every item is computed once, in the order
    of the list, and the items are sorted by these keys, stably. *)
Definition list_sort {A : Type} (key : A -> result (Z * list N))
  (l : list A) : result (list A) :=
  keys ← map_m key l;
  Ok (map snd (sort_by fst (combine keys l))).

(** [for x in xs: body], with the loop state threaded and a raised
    exception leaving the loop. *)
Fixpoint for_each {A S : Type} (xs : list A) (body : A -> S -> result S)
  (s : S) : result S :=
  match xs with
  | [] => Ok s
  | x :: xs' => s' ← body x s; for_each xs' body s'
  end.

Fixpoint enumerate_from {A : Type} (start : nat) (l : list A)
  : list (nat * A) :=
  match l with
  | [] => []
  | x :: l' => (start, x) :: enumerate_from (S start) l'
  end.

(** [enumerate(l)] *)
Definition enumerate {A : Type} (l : list A) : list (nat * A) :=
  enumerate_from 0 l.

(** The whitespace that [str.strip] and [str.rstrip] remove, in UTF-8:
    U+0009 to U+000D, U+001C to U+0020; *)
Definition space1 (a : ascii) : bool :=
  let n := nat_of_ascii a in
  ((9 <=? n)%nat && (n <=? 13)%nat) || ((28 <=? n)%nat && (n <=? 32)%nat).

(** U+0085 and U+00A0; *)
Definition space2 (a b : ascii) : bool :=
  (nat_of_ascii a =? 194)%nat &&
  ((nat_of_ascii b =? 133)%nat || (nat_of_ascii b =? 160)%nat).

(** U+1680, U+2000 to U+200A, U+2028, U+2029, U+202F, U+205F and U+3000. *)
Definition space3 (a b c : ascii) : bool :=
  let '(x, y, z) := (nat_of_ascii a, nat_of_ascii b, nat_of_ascii c) in
  ((x =? 225) && (y =? 154) && (z =? 128))%nat ||
  ((x =? 226) && (y =? 128) &&
   (((128 <=? z) && (z <=? 138)) || (z =? 168) || (z =? 169) || (z =? 175)))%nat ||
  ((x =? 226) && (y =? 129) && (z =? 159))%nat ||
  ((x =? 227) && (y =? 128) && (z =? 128))%nat.

(** [s.lstrip()] *)
Fixpoint lstrip (s : string) : string :=
  match s with
  | EmptyString => EmptyString
  | String a s1 =>
      if space1 a then lstrip s1
      else
        match s1 with
        | EmptyString => s
        | String b s2 =>
            if space2 a b then lstrip s2
            else
              match s2 with
              | EmptyString => s
              | String c s3 => if space3 a b c then lstrip s3 else s
              end
        end
  end.

(** [s.isspace()], also true of the empty string here: [s] is whitespace
    from end to end. *)
Definition blank (s : string) : bool :=
  match lstrip s with
  | EmptyString => true
  | String _ _ => false
  end.

(** [s.rstrip()] *)
Fixpoint rstrip (s : string) : string :=
  match s with
  | EmptyString => EmptyString
  | String a s' => if blank s then EmptyString else String a (rstrip s')
  end.

(** [s.strip()] *)
Definition strip (s : string) : string := rstrip (lstrip s).

(** ** should_ignore *)

Definition should_ignore (path : node) : result bool :=
  let name := name path in
  match is_dir path with
  | Raise e => Raise e
  | Ok true =>
      if bool_decide (name ∈ DEFAULT_IGNORE_DIRS) then Ok true
      else if negb INCLUDE_HIDDEN && startswith name "." then Ok true
      else Ok false
  | Ok false =>
      if bool_decide (name ∈ DEFAULT_IGNORE_FILES) then Ok true
      else if negb INCLUDE_HIDDEN && startswith name "." then Ok true
      else Ok false
  end.

Section Host.

(** [str.lower], with the case tables of the host. *)
Variable lower : string -> string.

(** The code points of a string, by which Python compares strings. *)
Variable code_points : string -> list N.

(** ** list_children_sorted *)

(** The sort key [(0 if x.is_dir() else 1, x.name.lower())], the string as
    Python compares it. *)
Definition sort_key (x : node) : result (Z * list N) :=
  match is_dir x with
  | Raise e => Raise e
  | Ok d => Ok (if d then 0%Z else 1%Z, code_points (lower (name x)))
  end.

Definition list_children_sorted (p : node) : result (list node) :=
  match iterdir p with
  | Raise PermissionError => Ok []
  | Raise e => Raise e
  | Ok children =>
      children ←
        filter_m
          (fun c =>
             match should_ignore c with
             | Raise e => Raise e
             | Ok ignored => Ok (negb ignored)
             end)
          children;
      list_sort sort_key children
  end.

(** ** render_tree *)

Definition branch_of (is_last : bool) : string :=
  if is_last then "└── " else "├── ".

Definition indent_of (is_last : bool) : string :=
  if is_last then "    " else "│   ".

(** The body of [walk]'s loop for one [(idx, child)], given the recursive
    call. *)
Definition walk_child
  (walk : node -> string -> list string -> result (list string))
  (prefix : string) (count : nat) (ic : nat * node) (lines : list string)
  : result (list string) :=
  let '(idx, child) := ic in
  let is_last := (Z.of_nat idx =? Z.of_nat count - 1)%Z in
  let branch := branch_of is_last in
  let next_prefix := prefix +:+ indent_of is_last in
  match is_dir child with
  | Raise e => Raise e
  | Ok true =>
      walk child next_prefix
        (lines ++ [prefix +:+ branch +:+ name child +:+ "/"])
  | Ok false => Ok (lines ++ [prefix +:+ branch +:+ name child])
  end.

(** Nesting depth of a tree: the number of recursive calls [walk] can make
    below a node. *)
Fixpoint height (p : node) : nat :=
  match p with
  | File _ => 0
  | Dir _ _ entries => S (list_max (map height entries))
  | Opaque _ _ => 0
  end.

(** [walk], by recursion on a bound of the nesting depth.  The bound that
    [walk] passes is never used up: see [walk_unfold]. *)
Fixpoint walk_rec (depth : nat) (dir_path : node) (prefix : string)
  (lines : list string) : result (list string) :=
  match depth with
  | O => Raise RecursionError
  | S depth' =>
      children ← list_children_sorted dir_path;
      let count := length children in
      for_each (enumerate children)
        (walk_child (walk_rec depth') prefix count) lines
  end.

Definition walk (dir_path : node) (prefix : string) (lines : list string)
  : result (list string) :=
  walk_rec (S (height dir_path)) dir_path prefix lines.

(** [root_str] is [str(root)], which the code uses when [root.name] is
    empty. *)
Definition render_tree (root_str : string) (root : node)
  : result (list string) :=
  let lines : list string := [] in
  let root_name := if String.eqb (name root) "" then root_str else name root in
  let lines := lines ++ [root_name +:+ "/"] in
  walk root "" lines.

(** ** detect_repo_root *)

(** An absolute path: its components, from the root of the file system. *)
Definition Path : Type := list string.

(** [p / name] *)
Definition joinpath (p : Path) (name : string) : Path := p ++ [name].

Fixpoint parents_from (n : nat) (p : Path) : list Path :=
  match n with
  | O => []
  | S n' => removelast p :: parents_from n' (removelast p)
  end.

(** [p.parents]: the proper ancestors, the nearest first. *)
Definition parents (p : Path) : list Path := parents_from (length p) p.

(** The entry a path leads to, from the root directory [fs]: [stat], which
    raises at an entry that cannot be examined. *)
Fixpoint lookup (fs : node) (p : Path) : result (option node) :=
  match p with
  | [] =>
      match fs with
      | Opaque _ e => Raise e
      | _ => Ok (Some fs)
      end
  | c :: p' =>
      match fs with
      | File _ => Ok None
      | Opaque _ e => Raise e
      | Dir _ _ entries =>
          match List.find (fun e => String.eqb (name e) c) entries with
          | Some e => lookup e p'
          | None => Ok None
          end
      end
  end.

(** [p.exists()] *)
Definition path_exists (fs : node) (p : Path) : result bool :=
  match lookup fs p with
  | Raise e => Raise e
  | Ok (Some _) => Ok true
  | Ok None => Ok false
  end.

(** [for x in l: if test(x): return x], where [test] may raise. *)
Fixpoint first_match {A : Type} (test : A -> result bool) (l : list A)
  : result (option A) :=
  match l with
  | [] => Ok None
  | x :: l' =>
      match test x with
      | Raise e => Raise e
      | Ok hit => if hit then Ok (Some x) else first_match test l'
      end
  end.

Section RootLocator.

(** [Path.resolve], which may raise, and the [Path] constructor belong to
    the host: they depend on the working directory, on symbolic links and
    on the path syntax. *)
Variable resolve : Path -> result Path.
Variable path_of_string : string -> Path.

(** [fs] is the file system, [git] the outcome of
    [subprocess.check_output(["git", "rev-parse", "--show-toplevel"], ...)]:
    the captured output, or the exception it raised.  The [try] block
    either returns or, by [except Exception: pass], falls through to the
    walk over the ancestors, which runs outside it. *)
Definition detect_repo_root (fs : node) (git : result string) (start : Path)
  : result Path :=
  let attempt : result (option Path) :=
    raw ← git;
    let out := strip raw in
    if negb (String.eqb out "")
    then p ← resolve (path_of_string out); Ok (Some p)
    else Ok None in
  match attempt with
  | Ok (Some p) => Ok p
  | Ok None | Raise _ =>
      cur ← resolve start;
      found ← first_match (fun p => path_exists fs (joinpath p ".git"))
                (cur :: parents cur);
      match found with
      | Some p => Ok p
      | None => resolve start
      end
  end.

End RootLocator.

(** ** main *)

Definition newline : string := String "010" EmptyString.

(** The text written to the output file:
    ["\n".join(tree_lines).rstrip() + "\n"]. *)
Definition file_content (tree_lines : list string) : string :=
  rstrip (String.concat newline tree_lines) +:+ newline.

(** * Specification-side definitions *)

(** [a] sorts no later than [b]. *)
Definition key_le {A : Type} (key : A -> Z * list N) (a b : A) : Prop :=
  key_leb (key a) (key b) = true.

(** ** Sibling order, in the words of the specification *)

(** Whenever [a] comes before [b]: a directory never follows a file, and
    two entries of one kind have non-decreasing lower-cased names. *)
Definition siblings_ordered (cs : list node) : Prop :=
  forall l1 a l2 b l3, cs = l1 ++ a :: l2 ++ b :: l3 ->
    (is_dir b = Ok true -> is_dir a = Ok true) /\
    (is_dir a = is_dir b ->
     points_leb (code_points (lower (name a)))
       (code_points (lower (name b))) = true).

(** ** The rendered tree

    A rendered entry, the line printed for it and the rendered entries
    below it.  [preorder] is the preorder traversal: a node, then the
    traversals of its children from first to last. *)
Inductive shown : Type :=
| Shown (entry : node) (line : string) (below : list shown).

Definition entry (s : shown) : node := let '(Shown e _ _) := s in e.

Definition line (s : shown) : string := let '(Shown _ l _) := s in l.

Definition below (s : shown) : list shown := let '(Shown _ _ b) := s in b.

Fixpoint preorder (s : shown) : list shown :=
  match s with
  | Shown _ _ b => s :: flat_map preorder b
  end.

(** The rendered entry of one [(idx, child)] of a directory's listing. *)
Definition show_child (sub : node -> string -> list shown) (prefix : string)
  (count : nat) (ic : nat * node) : shown :=
  let '(idx, child) := ic in
  let is_last := (Z.of_nat idx =? Z.of_nat count - 1)%Z in
  match is_dir child with
  | Ok true =>
      Shown child (prefix +:+ branch_of is_last +:+ name child +:+ "/")
        (sub child (prefix +:+ indent_of is_last))
  | _ => Shown child (prefix +:+ branch_of is_last +:+ name child) []
  end.

Fixpoint forest_rec (depth : nat) (dir_path : node) (prefix : string)
  : list shown :=
  match depth with
  | O => []
  | S depth' =>
      match list_children_sorted dir_path with
      | Ok children =>
          map (show_child (forest_rec depth') prefix (length children))
            (enumerate children)
      | Raise _ => []
      end
  end.

(** The rendered entries below a directory. *)
Definition forest (dir_path : node) (prefix : string) : list shown :=
  forest_rec (S (height dir_path)) dir_path prefix.

Definition root_name (root_str : string) (root : node) : string :=
  if String.eqb (name root) "" then root_str else name root.

(** The whole rendered tree: the root line above the forest of the root. *)
Definition rendering (root_str : string) (root : node) : shown :=
  Shown root (root_name root_str root +:+ "/") (forest root "").

(** The entries of a listing that are kept: [should_ignore] returns
    [False] for them. *)
Definition kept (c : node) : bool :=
  match should_ignore c with
  | Ok false => true
  | _ => false
  end.

Definition visible (es : list node) : list node := List.filter kept es.

(** The sort key of an entry that can be examined. *)
Definition order_key (x : node) : Z * list N :=
  (match is_dir x with Ok true => 0%Z | _ => 1%Z end,
   code_points (lower (name x))).

(** The number of entries the walk prints below a directory: every
    non-ignored child of a directory it lists, counted recursively. *)
Fixpoint count_entries (p : node) : nat :=
  match p with
  | Dir _ None entries =>
      list_sum
        (map (fun c => if kept c then S (count_entries c) else 0) entries)
  | _ => 0
  end.

(** ** Failures *)

(** What [is_dir] raises for the first entry that cannot be examined. *)
Fixpoint stat_error (es : list node) : option exn :=
  match es with
  | [] => None
  | c :: es' =>
      match is_dir c with
      | Raise e => Some e
      | Ok _ => stat_error es'
      end
  end.

(** The exception with which the listing of a directory fails, if it
    fails: what its enumeration raises, unless that is a permission error,
    or else what [is_dir] raises for one of the enumerated entries. *)
Definition listing_failure (d : node) : option exn :=
  match iterdir d with
  | Raise PermissionError => None
  | Raise e => Some e
  | Ok es => stat_error es
  end.

(** The failure of the first directory, in the order of the traversal,
    whose listing fails. *)
Fixpoint first_failure (l : list shown) : option exn :=
  match l with
  | [] => None
  | s :: l' =>
      match is_dir (entry s) with
      | Ok true =>
          match listing_failure (entry s) with
          | Some e => Some e
          | None => first_failure l'
          end
      | _ => first_failure l'
      end
  end.

(** The first failure of the walk from [root]: the listing of the root
    itself comes first. *)
Definition render_failure (root : node) : option exn :=
  match listing_failure root with
  | Some e => Some e
  | None => first_failure (flat_map preorder (forest root ""))
  end.


(** ** Trees that render alike *)

(** [R] relates directories whose listings agree child by child in name and
    kind, with related child directories. *)
Definition walk_similar (R : node -> node -> Prop) : Prop :=
  forall t t', R t t' ->
    match list_children_sorted t, list_children_sorted t' with
    | Ok cs, Ok cs' =>
        Forall2 (fun c c' => name c = name c' /\ is_dir c = is_dir c' /\
                             (is_dir c = Ok true -> R c c')) cs cs'
    | Raise e, Raise e' => e = e'
    | _, _ => False
    end.

(** [prune t t']: [t'] is [t] with one directory of an ignored name removed,
    with everything it holds, somewhere below the root of [t]. *)
Inductive prune : node -> node -> Prop :=
| prune_here (n : string) (f : option exn) (l1 l2 : list node) (g : node) :
    is_dir g = Ok true ->
    name g ∈ DEFAULT_IGNORE_DIRS ->
    prune (Dir n f (l1 ++ g :: l2)) (Dir n f (l1 ++ l2))
| prune_below (n : string) (f : option exn) (l1 l2 : list node)
    (c c' : node) :
    prune c c' ->
    prune (Dir n f (l1 ++ c :: l2)) (Dir n f (l1 ++ c' :: l2)).

(** ** The same entries, enumerated in another order *)

(** [same_entries t t']: [t'] is the file system [t], observed once more.
    Every directory holds the same entries; the enumeration may yield them
    in another order where every entry can be examined and the sort keys of
    the non-ignored entries are pairwise distinct. *)
Inductive same_entries : node -> node -> Prop :=
| same_file (n : string) : same_entries (File n) (File n)
| same_opaque (n : string) (e : exn) : same_entries (Opaque n e) (Opaque n e)
| same_dir (n : string) (f : option exn) (es mid es' : list node) :
    Forall2 same_entries es mid ->
    mid = es' \/
    (Permutation mid es' /\
     stat_error mid = None /\
     List.NoDup (map sort_key (visible mid))) ->
    same_entries (Dir n f es) (Dir n f es').

(** ** The version-control query *)

Section RootLocatorSpec.

Variable resolve : Path -> result Path.
Variable path_of_string : string -> Path.

(** The version-control query gave no usable answer: it raised, its output
    was blank, or the path it named could not be resolved. *)
Definition git_failed (git : result string) : Prop :=
  match git with
  | Ok raw =>
      strip raw = "" \/
      exists e, resolve (path_of_string (strip raw)) = Raise e
  | Raise _ => True
  end.

End RootLocatorSpec.

(** ** Indentation *)

(** One unit of four columns for each enclosing directory below the root,
    the outermost first: blank below a last child, a vertical bar
    otherwise. *)
Fixpoint indentation (under_last : list bool) : string :=
  match under_last with
  | [] => ""
  | is_last :: rest =>
      (if is_last then "    " else "│   ") +:+ indentation rest
  end.

(** The traversal of a list of siblings, each node with its place in the
    tree: for every enclosing directory among [above] whether it is the
    last of its siblings, and whether the node is the last of its own. *)
Fixpoint placed (above : list bool) (last : bool) (s : shown)
  : list (list bool * bool * shown) :=
  match s with
  | Shown _ _ b =>
      (above, last, s)
      :: (fix siblings (l : list shown) : list (list bool * bool * shown) :=
            match l with
            | [] => []
            | c :: l' =>
                placed (above ++ [last])
                  (match l' with [] => true | _ :: _ => false end) c
                ++ siblings l'
            end) b
  end.

Fixpoint placed_forest (above : list bool) (l : list shown)
  : list (list bool * bool * shown) :=
  match l with
  | [] => []
  | c :: l' =>
      placed above (match l' with [] => true | _ :: _ => false end) c
      ++ placed_forest above l'
  end.

(** ** Whitespace at the end *)

(** [t] is the UTF-8 encoding of one whitespace character. *)
Definition space_token (t : string) : Prop :=
  (exists a, t = String a "" /\ space1 a = true) \/
  (exists a b, t = String a (String b "") /\ space2 a b = true) \/
  (exists a b c, t = String a (String b (String c "")) /\
                 space3 a b c = true).

(** [s] ends with a whitespace character. *)
Definition ends_with_whitespace (s : string) : Prop :=
  exists b t, s = b +:+ t /\ space_token t.

(** * Example file systems *)

(** A root holding [a.txt] and [sub/], which holds [b.txt]. *)
Definition scenario_entries : list node :=
  [File "a.txt"; Dir "sub" None [File "b.txt"]].

(** A project with ignored entries, a directory that may not be listed and
    the output of an earlier run. *)
Definition project : node :=
  Dir "proj" None
    [ File "a.txt";
      Dir "sub" None [File "b.txt"];
      Dir "node_modules" None [File "x.js"];
      File ".DS_Store";
      File "DIR.txt";
      Dir "Zed" (Some PermissionError) [File "q"] ].

(** The example project, enumerated in another order. *)
Definition project_reordered : node :=
  Dir "proj" None
    [ Dir "sub" None [File "b.txt"];
      File "a.txt";
      Dir "node_modules" None [File "x.js"];
      File ".DS_Store";
      File "DIR.txt";
      Dir "Zed" (Some PermissionError) [File "q"] ].

(** A root with a directory whose enumeration fails with an I/O error. *)
Definition broken : node :=
  Dir "r" None [File "a.txt"; Dir "disk" (Some OSError) []].

(** A root that may be read but not searched: its entry cannot be
    examined. *)
Definition unsearchable : node :=
  Dir "r" None [Opaque "a.txt" PermissionError].

(** A project directory that is itself called [build]. *)
Definition build_root : node := Dir "build" None [File "a.txt"].

(** An earlier output kept inside an ignored directory. *)
Definition stale_output : node :=
  Dir "r" None [Dir "node_modules" None [File "DIR.txt"]].

(** A checkout whose [.git] is a regular file, as in a worktree. *)
Definition worktree_fs : node :=
  Dir "" None
    [ Dir "home" None
        [ Dir "wt" None [File ".git"; Dir "src" None [File "m.py"]] ] ].

(** A file system without version-control metadata. *)
Definition plain_fs : node :=
  Dir "" None [Dir "home" None [Dir "p" None [File "m.py"]]].

(** A working directory [/locked/proj] whose parent may neither be read
    nor searched: [stat] below [/locked] fails with a permission error. *)
Definition locked_fs : node :=
  Dir "" None
    [Dir "locked" (Some PermissionError) [Opaque "proj" PermissionError]].

(** ** The host, for names in ASCII *)

Definition ascii_lower_char (c : ascii) : ascii :=
  let n := nat_of_ascii c in
  if (65 <=? n)%nat && (n <=? 90)%nat then ascii_of_nat (n + 32) else c.

(** [str.lower] on ASCII letters. *)
Fixpoint ascii_lower (s : string) : string :=
  match s with
  | EmptyString => EmptyString
  | String c s' => String (ascii_lower_char c) (ascii_lower s')
  end.

(** The code points of a string of ASCII characters: its bytes. *)
Fixpoint byte_points (s : string) : list N :=
  match s with
  | EmptyString => []
  | String c s' => N_of_ascii c :: byte_points s'
  end.

(** * Properties *)

(** ** The order of sort keys *)

Lemma points_leb_refl (a : list N) : points_leb a a = true.
Proof.
  induction a as [|x a IH]; simpl; [reflexivity |].
  now rewrite N.eqb_refl, IH, orb_true_r.
Qed.

Lemma points_leb_trans (a b c : list N) :
  points_leb a b = true -> points_leb b c = true -> points_leb a c = true.
Proof.
  revert b c.
  induction a as [|x a IH]; intros [|y b] [|z c]; simpl; try congruence.
  rewrite !orb_true_iff, !andb_true_iff, !N.ltb_lt, !N.eqb_eq.
  intros [Hxy | [Hxy Hab]] [Hyz | [Hyz Hbc]]; try (left; lia).
  right. split; [lia | eauto].
Qed.

Lemma points_leb_total (a b : list N) :
  points_leb a b = false -> points_leb b a = true.
Proof.
  revert b. induction a as [|x a IH]; intros [|y b]; simpl; try congruence.
  rewrite orb_false_iff, andb_false_iff, orb_true_iff, andb_true_iff.
  rewrite N.ltb_lt, N.ltb_ge, N.eqb_eq, N.eqb_neq.
  intros [Hlt [Hne | Hab]].
  - left. lia.
  - destruct (N.eq_dec x y) as [E | E]; [right | left; lia].
    split; [lia | auto].
Qed.

Lemma points_leb_antisym (a b : list N) :
  points_leb a b = true -> points_leb b a = true -> a = b.
Proof.
  revert b. induction a as [|x a IH]; intros [|y b]; simpl; try congruence.
  rewrite !orb_true_iff, !andb_true_iff, !N.ltb_lt, !N.eqb_eq.
  intros [H1 | [H1 S1]] [H2 | [H2 S2]]; try lia.
  f_equal; [exact H1 | auto].
Qed.

Lemma key_leb_refl (k : Z * list N) : key_leb k k = true.
Proof.
  unfold key_leb.
  now rewrite Z.eqb_refl, points_leb_refl, orb_true_r.
Qed.

Lemma key_leb_trans (a b c : Z * list N) :
  key_leb a b = true -> key_leb b c = true -> key_leb a c = true.
Proof.
  unfold key_leb.
  rewrite !orb_true_iff, !andb_true_iff, !Z.ltb_lt, !Z.eqb_eq.
  intros [Hab | [Hab Sab]] [Hbc | [Hbc Sbc]]; try (left; lia).
  right. split; [lia | eauto using points_leb_trans].
Qed.

Lemma key_leb_total (a b : Z * list N) :
  key_leb a b = false -> key_leb b a = true.
Proof.
  unfold key_leb.
  rewrite orb_false_iff, andb_false_iff, orb_true_iff, andb_true_iff.
  rewrite !Z.ltb_lt, Z.ltb_ge, Z.eqb_eq, Z.eqb_neq.
  intros [Hlt [Hne | Hs]].
  - left. lia.
  - destruct (Z.eq_dec (fst a) (fst b)) as [E | E]; [right | left; lia].
    split; [lia | now apply points_leb_total].
Qed.

Lemma key_leb_antisym (a b : Z * list N) :
  key_leb a b = true -> key_leb b a = true -> a = b.
Proof.
  destruct a as [m s], b as [n t]. unfold key_leb. simpl.
  rewrite !orb_true_iff, !andb_true_iff, !Z.ltb_lt, !Z.eqb_eq.
  intros [H1 | [H1 S1]] [H2 | [H2 S2]]; try lia.
  f_equal; [exact H1 | now apply points_leb_antisym].
Qed.

(** ** The stable sort *)

Section Sorting.
Context {A : Type} (key : A -> Z * list N).

Lemma insert_by_perm (x : A) (l : list A) :
  Permutation (insert_by key x l) (x :: l).
Proof.
  induction l as [|y l IH]; simpl; [reflexivity |].
  destruct (key_leb (key x) (key y)); [reflexivity |].
  rewrite IH. apply perm_swap.
Qed.

Lemma sort_by_perm (l : list A) : Permutation (sort_by key l) l.
Proof.
  induction l as [|x l IH]; simpl; [reflexivity |].
  rewrite insert_by_perm. now constructor.
Qed.

Lemma sort_by_In (l : list A) (x : A) : In x (sort_by key l) <-> In x l.
Proof.
  split; apply Permutation_in;
    [apply sort_by_perm | symmetry; apply sort_by_perm].
Qed.

Lemma sort_by_length (l : list A) : length (sort_by key l) = length l.
Proof. apply Permutation_length, sort_by_perm. Qed.

Lemma insert_by_sorted (x : A) (l : list A) :
  StronglySorted (key_le key) l ->
  StronglySorted (key_le key) (insert_by key x l).
Proof.
  induction 1 as [|y l Hl IH Hy]; simpl.
  - repeat constructor.
  - destruct (key_leb (key x) (key y)) eqn:E.
    + constructor; [now constructor |].
      constructor; [exact E |].
      eapply List.Forall_impl; [| exact Hy].
      intros z Hz. unfold key_le in *. eauto using key_leb_trans.
    + constructor; [exact IH |].
      eapply Permutation_Forall; [symmetry; apply insert_by_perm |].
      constructor; [| exact Hy].
      now apply key_leb_total.
Qed.

Lemma sort_by_sorted (l : list A) : StronglySorted (key_le key) (sort_by key l).
Proof.
  induction l as [|x l IH]; simpl; [constructor |].
  now apply insert_by_sorted.
Qed.

Lemma sorted_before (l l1 l2 l3 : list A) (a b : A) :
  StronglySorted (key_le key) l -> l = l1 ++ a :: l2 ++ b :: l3 ->
  key_le key a b.
Proof.
  intros Hs ->. revert Hs.
  induction l1 as [|x l1 IH]; simpl; intros Hs.
  - apply StronglySorted_inv in Hs as [_ Hall].
    rewrite List.Forall_forall in Hall. apply Hall.
    apply in_or_app. right. now left.
  - apply StronglySorted_inv in Hs as [Hs _]. auto.
Qed.

(** Inserting an entry leaves the entries of each key in their order, the
    new entry in front of those of its own key. *)
Lemma insert_by_same_key (k : Z * list N) (x : A) (l : list A) :
  List.filter (fun c => bool_decide (key c = k)) (insert_by key x l)
  = List.filter (fun c => bool_decide (key c = k)) (x :: l).
Proof.
  induction l as [|y l IH]; [reflexivity |].
  cbn [insert_by].
  destruct (key_leb (key x) (key y)) eqn:Hle; [reflexivity |].
  cbn [List.filter] in *. rewrite IH.
  destruct (bool_decide (key x = k)) eqn:Hx;
    destruct (bool_decide (key y = k)) eqn:Hy; try reflexivity.
  apply bool_decide_eq_true_1 in Hx, Hy.
  rewrite Hx, Hy, key_leb_refl in Hle. discriminate.
Qed.

Lemma sort_by_same_key (k : Z * list N) (l : list A) :
  List.filter (fun c => bool_decide (key c = k)) (sort_by key l)
  = List.filter (fun c => bool_decide (key c = k)) l.
Proof.
  induction l as [|x l IH]; [reflexivity |].
  cbn [sort_by]. rewrite insert_by_same_key.
  cbn [List.filter]. now rewrite IH.
Qed.

(** A list sorted by keys that are pairwise distinct is the only sorted
    arrangement of its elements. *)
Lemma sorted_perm_unique (l l' : list A) :
  StronglySorted (key_le key) l -> StronglySorted (key_le key) l' ->
  Permutation l l' -> List.NoDup (map key l) -> l = l'.
Proof.
  revert l'. induction l as [|x xs IH]; intros l' Hs Hs' Hperm Hnd.
  - now apply Permutation_nil in Hperm.
  - destruct l' as [|y ys];
      [symmetry in Hperm; now apply Permutation_nil in Hperm |].
    apply StronglySorted_inv in Hs as [Hxs Hx].
    apply StronglySorted_inv in Hs' as [Hys Hy].
    rewrite List.Forall_forall in Hx, Hy.
    apply NoDup_cons_iff in Hnd as [Hfresh Hnd].
    assert (x = y) as <-.
    { assert (In x (y :: ys)) as [-> | Hxin]
        by (eapply Permutation_in; [exact Hperm | now left]);
        [reflexivity |].
      assert (In y (x :: xs)) as [-> | Hyin]
        by (eapply Permutation_in; [symmetry; exact Hperm | now left]);
        [reflexivity |].
      exfalso. apply Hfresh.
      rewrite (key_leb_antisym (key x) (key y) (Hx y Hyin) (Hy x Hxin)).
      now apply in_map. }
    f_equal. apply IH; auto.
    now apply Permutation_cons_inv in Hperm.
Qed.

Lemma sort_by_unique (l l' : list A) :
  Permutation l l' -> List.NoDup (map key l) ->
  sort_by key l = sort_by key l'.
Proof.
  intros Hperm Hnd.
  apply sorted_perm_unique; try apply sort_by_sorted.
  - rewrite !sort_by_perm. exact Hperm.
  - eapply Permutation_NoDup; [| exact Hnd].
    apply Permutation_map. symmetry. apply sort_by_perm.
Qed.

End Sorting.

Lemma insert_by_Forall2 {A : Type} (Q : A -> A -> Prop)
  (key : A -> Z * list N) (x y : A) (l l' : list A) :
  (forall a b, Q a b -> key a = key b) ->
  Q x y -> Forall2 Q l l' ->
  Forall2 Q (insert_by key x l) (insert_by key y l').
Proof.
  intros Hkey Hxy. induction 1 as [|a b l l' Hab Hl IH]; simpl.
  - repeat constructor. exact Hxy.
  - rewrite (Hkey _ _ Hxy), (Hkey _ _ Hab).
    destruct (key_leb (key y) (key b)); repeat constructor; auto.
Qed.

Lemma sort_by_Forall2 {A : Type} (Q : A -> A -> Prop)
  (key : A -> Z * list N) (l l' : list A) :
  (forall a b, Q a b -> key a = key b) ->
  Forall2 Q l l' -> Forall2 Q (sort_by key l) (sort_by key l').
Proof.
  intros Hkey. induction 1; simpl; [constructor |].
  now apply insert_by_Forall2.
Qed.

Lemma filter_Forall2 {A : Type} (Q : A -> A -> Prop) (keep : A -> bool)
  (l l' : list A) :
  (forall a b, Q a b -> keep a = keep b) ->
  Forall2 Q l l' -> Forall2 Q (List.filter keep l) (List.filter keep l').
Proof.
  intros Hkeep. induction 1 as [|a b l l' Hab Hl IH]; simpl; [constructor |].
  rewrite (Hkeep _ _ Hab). destruct (keep b); auto.
Qed.

Lemma Forall2_same {A : Type} (Q : A -> A -> Prop) (l : list A) :
  (forall a, Q a a) -> Forall2 Q l l.
Proof. intros Hrefl. induction l; constructor; auto. Qed.

Lemma filter_perm {A : Type} (keep : A -> bool) (l l' : list A) :
  Permutation l l' -> Permutation (List.filter keep l) (List.filter keep l').
Proof.
  induction 1 as [| x l l' H IH | x y l | l l' l'' H1 IH1 H2 IH2]; simpl.
  - constructor.
  - destruct (keep x); [now constructor | exact IH].
  - destruct (keep x), (keep y); try reflexivity. apply perm_swap.
  - now transitivity (List.filter keep l').
Qed.

(** ** The listing *)

Lemma should_ignore_cases (c : node) :
  match is_dir c with
  | Raise e => should_ignore c = Raise e
  | Ok _ => exists b, should_ignore c = Ok b
  end.
Proof.
  unfold should_ignore.
  destruct (is_dir c) as [[|] | e]; [| | reflexivity].
  - destruct (bool_decide (name c ∈ DEFAULT_IGNORE_DIRS)); simpl; eauto.
  - destruct (bool_decide (name c ∈ DEFAULT_IGNORE_FILES)); simpl; eauto.
Qed.

Lemma kept_is_dir (c : node) :
  kept c = true -> exists d, is_dir c = Ok d.
Proof.
  unfold kept. pose proof (should_ignore_cases c) as H.
  destruct (is_dir c) as [d | e]; [eauto |].
  now rewrite H.
Qed.

Lemma kept_should_ignore (c : node) :
  kept c = true <-> should_ignore c = Ok false.
Proof.
  unfold kept. destruct (should_ignore c) as [[|] | e]; split; congruence.
Qed.

Lemma sort_key_kept (c : node) :
  kept c = true -> sort_key c = Ok (order_key c).
Proof.
  intros H. apply kept_is_dir in H as [d H].
  unfold sort_key, order_key. rewrite H. now destruct d.
Qed.

Lemma stat_error_In (es : list node) (c : node) :
  stat_error es = None -> In c es -> exists d, is_dir c = Ok d.
Proof.
  induction es as [|x es IH]; simpl; [tauto |].
  destruct (is_dir x) as [d | e] eqn:E; [| discriminate].
  intros H [<- | Hin]; eauto.
Qed.

Lemma stat_error_none (es : list node) :
  (forall c, In c es -> exists d, is_dir c = Ok d) -> stat_error es = None.
Proof.
  induction es as [|x es IH]; simpl; intros H; [reflexivity |].
  destruct (H x (or_introl eq_refl)) as [d ->]. auto.
Qed.

(** The comprehension that filters the children: it raises what [is_dir]
    raises for the first entry that cannot be examined, and keeps the
    entries for which [should_ignore] returns [False] otherwise. *)
Lemma filter_m_kept (es : list node) :
  filter_m
    (fun c =>
       match should_ignore c with
       | Raise e => Raise e
       | Ok ignored => Ok (negb ignored)
       end) es
  = match stat_error es with
    | Some e => Raise e
    | None => Ok (visible es)
    end.
Proof.
  induction es as [|c es IH]; [reflexivity |].
  cbn [filter_m stat_error visible List.filter]. rewrite IH.
  unfold kept. pose proof (should_ignore_cases c) as H.
  destruct (is_dir c) as [d | e].
  - destruct H as [b ->].
    destruct (stat_error es); [reflexivity |].
    now destruct b.
  - now rewrite H.
Qed.

Lemma map_m_pure {A B : Type} (f : A -> result B) (g : A -> B)
  (l : list A) :
  (forall x, In x l -> f x = Ok (g x)) -> map_m f l = Ok (map g l).
Proof.
  induction l as [|x l IH]; intros H; simpl; [reflexivity |].
  rewrite (H x (or_introl eq_refl)), IH; [reflexivity |].
  intros y Hy. apply H. now right.
Qed.

Lemma insert_by_decorated {A : Type} (key : A -> Z * list N) (x : A)
  (l : list A) :
  insert_by fst (key x, x) (map (fun y => (key y, y)) l)
  = map (fun y => (key y, y)) (insert_by key x l).
Proof.
  induction l as [|y l IH]; simpl; [reflexivity |].
  destruct (key_leb (key x) (key y)); simpl; [reflexivity |].
  now rewrite IH.
Qed.

(** Sorting the items decorated with their keys is sorting the items by
    the key function. *)
Lemma sort_by_decorated {A : Type} (key : A -> Z * list N) (l : list A) :
  map snd (sort_by fst (combine (map key l) l)) = sort_by key l.
Proof.
  assert (combine (map key l) l = map (fun y => (key y, y)) l) as ->.
  { induction l as [|x l IH]; simpl; [reflexivity | now rewrite IH]. }
  assert (sort_by fst (map (fun y => (key y, y)) l)
          = map (fun y => (key y, y)) (sort_by key l)) as ->.
  { induction l as [|x l IH]; simpl; [reflexivity |].
    now rewrite IH, insert_by_decorated. }
  rewrite map_map. simpl. apply map_id.
Qed.

Lemma list_sort_pure {A : Type} (key : A -> result (Z * list N))
  (pure_key : A -> Z * list N) (l : list A) :
  (forall x, In x l -> key x = Ok (pure_key x)) ->
  list_sort key l = Ok (sort_by pure_key l).
Proof.
  intros H. unfold list_sort. rewrite (map_m_pure _ _ _ H).
  unfold mbind, result_bind. now rewrite sort_by_decorated.
Qed.

(** What [list_children_sorted] computes. *)
Lemma list_children_sorted_listing (p : node) (es : list node) :
  iterdir p = Ok es ->
  list_children_sorted p
  = match stat_error es with
    | Some e => Raise e
    | None => Ok (sort_by order_key (visible es))
    end.
Proof.
  intros Hes. unfold list_children_sorted. rewrite Hes, filter_m_kept.
  destruct (stat_error es); [reflexivity |].
  unfold mbind, result_bind. apply list_sort_pure.
  intros x Hx. apply sort_key_kept.
  now apply filter_In in Hx.
Qed.

Lemma list_children_sorted_failure (p : node) :
  list_children_sorted p
  = match listing_failure p with
    | Some e => Raise e
    | None =>
        Ok match iterdir p with
           | Ok es => sort_by order_key (visible es)
           | Raise _ => []
           end
    end.
Proof.
  unfold listing_failure.
  destruct (iterdir p) as [es | e] eqn:Hes.
  - rewrite (list_children_sorted_listing _ _ Hes).
    now destruct (stat_error es).
  - unfold list_children_sorted. rewrite Hes. now destruct e.
Qed.

Lemma iterdir_entries (p : node) (es : list node) :
  iterdir p = Ok es -> exists n, p = Dir n None es.
Proof.
  destruct p as [n | n [e |] entries | n e]; simpl; try discriminate.
  intros [= <-]. eauto.
Qed.

(** What [list_children_sorted] returns: entries of the directory that
    can be examined and are not ignored. *)
Lemma list_children_sorted_In (p : node) (cs : list node) (c : node) :
  list_children_sorted p = Ok cs ->
  In c cs ->
  should_ignore c = Ok false /\
  (exists d, is_dir c = Ok d) /\
  exists n entries, p = Dir n None entries /\ In c entries.
Proof.
  intros Hcs Hin.
  rewrite list_children_sorted_failure in Hcs.
  destruct (listing_failure p); [discriminate |].
  injection Hcs as <-.
  destruct (iterdir p) as [es | e] eqn:Hes; [| destruct Hin].
  apply sort_by_In, filter_In in Hin as [Hin Hkept].
  apply iterdir_entries in Hes as [n ->].
  split; [now apply kept_should_ignore |].
  split; [now apply kept_is_dir | eauto].
Qed.

Lemma order_key_le (a b : node) :
  (exists d, is_dir a = Ok d) -> (exists d, is_dir b = Ok d) ->
  key_le order_key a b ->
  (is_dir b = Ok true -> is_dir a = Ok true) /\
  (is_dir a = is_dir b ->
   points_leb (code_points (lower (name a)))
     (code_points (lower (name b))) = true).
Proof.
  unfold key_le, key_leb, order_key. simpl.
  intros [[|] ->] [[|] ->]; simpl; intros H; split; intros E; congruence.
Qed.

Lemma list_children_sorted_ordered (p : node) (cs : list node) :
  list_children_sorted p = Ok cs -> siblings_ordered cs.
Proof.
  intros Hcs l1 a l2 b l3 E.
  assert (In a cs) as Ha by (rewrite E; apply in_elt).
  assert (In b cs) as Hb.
  { rewrite E. apply in_or_app. right. right. apply in_elt. }
  destruct (list_children_sorted_In _ _ _ Hcs Ha) as (_ & Hda & _).
  destruct (list_children_sorted_In _ _ _ Hcs Hb) as (_ & Hdb & _).
  apply order_key_le; trivial.
  rewrite list_children_sorted_failure in Hcs.
  destruct (listing_failure p); [discriminate |].
  injection Hcs as Hcs.
  destruct (iterdir p) as [es | e].
  - eapply sorted_before; [apply sort_by_sorted |].
    rewrite Hcs. exact E.
  - subst cs. now destruct l1.
Qed.

(** ** Loops and enumeration *)

Lemma for_each_ext {A S : Type} (xs : list A)
  (body1 body2 : A -> S -> result S) (s : S) :
  (forall x, In x xs -> forall s', body1 x s' = body2 x s') ->
  for_each xs body1 s = for_each xs body2 s.
Proof.
  revert s. induction xs as [|x xs IH]; intros s Hext; simpl; [reflexivity |].
  rewrite (Hext x (or_introl eq_refl)).
  destruct (body2 x s) as [s' | e]; simpl; [| reflexivity].
  apply IH. intros y Hy. apply Hext. now right.
Qed.

Lemma enumerate_from_In {A : Type} (start : nat) (l : list A) (i : nat)
  (x : A) :
  In (i, x) (enumerate_from start l) -> In x l.
Proof.
  revert start. induction l as [|y l IH]; simpl; intros start; [tauto |].
  intros [[= _ ->] | H]; [now left | right; eauto].
Qed.

Lemma enumerate_from_snd {A : Type} (start : nat) (l : list A) :
  map snd (enumerate_from start l) = l.
Proof.
  revert start. induction l as [|y l IH]; simpl; intros start;
    [reflexivity | now rewrite IH].
Qed.


Lemma enumerate_from_nth {A : Type} (start : nat) (l : list A) (i j : nat)
  (x : A) :
  nth_error (enumerate_from start l) i = Some (j, x) ->
  j = (start + i)%nat /\ nth_error l i = Some x.
Proof.
  revert start i. induction l as [|y l IH]; intros start [|i]; simpl;
    try discriminate.
  - intros [= <- <-]. split; [lia | reflexivity].
  - intros H. apply IH in H as [-> H]. split; [lia | exact H].
Qed.

Lemma enumerate_from_length {A : Type} (start : nat) (l : list A) :
  length (enumerate_from start l) = length l.
Proof.
  revert start. induction l as [|y l IH]; simpl; intros start;
    [reflexivity | now rewrite IH].
Qed.

(** ** Depth of the recursion *)

Lemma height_entry (n : string) (f : option exn) (entries : list node)
  (c : node) :
  In c entries -> (height c < height (Dir n f entries))%nat.
Proof.
  intros Hin. simpl.
  pose proof (list_max_le (map height entries)
                (list_max (map height entries))) as [H _].
  specialize (H (Nat.le_refl _)).
  rewrite List.Forall_forall in H.
  specialize (H (height c) (in_map height _ _ Hin)). lia.
Qed.

Lemma height_child (p : node) (cs : list node) (c : node) :
  list_children_sorted p = Ok cs -> In c cs -> (height c < height p)%nat.
Proof.
  intros Hcs Hin.
  destruct (list_children_sorted_In _ _ _ Hcs Hin)
    as (_ & _ & n & entries & -> & Hc).
  now apply height_entry.
Qed.

(** Any bound above the depth of the tree gives the same walk. *)
Lemma walk_rec_depth (k1 k2 : nat) (d : node) (prefix : string)
  (lines : list string) :
  (height d < k1)%nat -> (height d < k2)%nat ->
  walk_rec k1 d prefix lines = walk_rec k2 d prefix lines.
Proof.
  revert k2 d prefix lines.
  induction k1 as [|k1 IH]; intros [|k2] d prefix lines H1 H2; try lia.
  simpl. destruct (list_children_sorted d) as [cs | e] eqn:Hcs; simpl;
    [| reflexivity].
  apply for_each_ext. intros [i c] Hin l.
  apply enumerate_from_In in Hin.
  pose proof (height_child _ _ _ Hcs Hin).
  unfold walk_child. destruct (is_dir c) as [[|] | e]; try reflexivity.
  apply IH; lia.
Qed.

(** [walk] satisfies the recursion of the source: the listing of the
    directory, then the loop over its children with [walk] itself as the
    recursive call.  The bound on the depth is never used up. *)
Lemma walk_unfold (d : node) (prefix : string) (lines : list string) :
  walk d prefix lines =
  (children ← list_children_sorted d;
   for_each (enumerate children) (walk_child walk prefix (length children))
     lines).
Proof.
  unfold walk at 1. simpl.
  destruct (list_children_sorted d) as [cs | e] eqn:Hcs; simpl;
    [| reflexivity].
  apply for_each_ext. intros [i c] Hin l.
  apply enumerate_from_In in Hin.
  pose proof (height_child _ _ _ Hcs Hin).
  unfold walk_child, walk. destruct (is_dir c) as [[|] | e]; try reflexivity.
  apply walk_rec_depth; simpl in *; lia.
Qed.

(** ** The walk prints the preorder of the rendered forest *)

Lemma show_child_entry (sub : node -> string -> list shown) (prefix : string)
  (count : nat) (xs : list (nat * node)) :
  map entry (map (show_child sub prefix count) xs) = map snd xs.
Proof.
  induction xs as [|[i c] xs IH]; simpl; [reflexivity |].
  rewrite IH. unfold show_child. now destruct (is_dir c) as [[|] | e].
Qed.

Lemma first_failure_app (l1 l2 : list shown) :
  first_failure (l1 ++ l2)
  = match first_failure l1 with
    | Some e => Some e
    | None => first_failure l2
    end.
Proof.
  induction l1 as [|s l1 IH]; simpl; [reflexivity |].
  destruct (is_dir (entry s)) as [[|] | e]; auto.
  destruct (listing_failure (entry s)); auto.
Qed.

(** A loop whose body either appends the lines of a part of the forest or
    raises with the first failure of that part. *)
Lemma for_each_outcome {A : Type} (g : A -> list shown)
  (body : A -> list string -> result (list string)) (xs : list A) :
  (forall x, In x xs -> forall l,
     body x l = match first_failure (g x) with
                | Some e => Raise e
                | None => Ok (l ++ map line (g x))
                end) ->
  forall l,
    for_each xs body l
    = match first_failure (flat_map g xs) with
      | Some e => Raise e
      | None => Ok (l ++ map line (flat_map g xs))
      end.
Proof.
  induction xs as [|x xs IH]; intros Hbody l; simpl.
  - now rewrite app_nil_r.
  - rewrite (Hbody x (or_introl eq_refl)), first_failure_app.
    destruct (first_failure (g x)); [reflexivity |].
    unfold mbind, result_bind.
    rewrite IH by (intros y Hy; apply Hbody; now right).
    destruct (first_failure (flat_map g xs)); [reflexivity |].
    now rewrite map_app, app_assoc.
Qed.

(** The outcome of the walk: the exception of the first listing that
    fails, in the order of the traversal, or else the lines collected so
    far followed by the lines of the rendered forest. *)
Lemma walk_rec_outcome (k : nat) (d : node) (prefix : string)
  (lines : list string) :
  (height d < k)%nat ->
  walk_rec k d prefix lines
  = match listing_failure d with
    | Some e => Raise e
    | None =>
        match first_failure (flat_map preorder (forest_rec k d prefix)) with
        | Some e => Raise e
        | None =>
            Ok (lines ++ map line (flat_map preorder (forest_rec k d prefix)))
        end
    end.
Proof.
  revert d prefix lines.
  induction k as [|k IH]; intros d prefix lines Hk; [lia |].
  cbn [walk_rec forest_rec].
  destruct (list_children_sorted d) as [cs | e] eqn:Hcs.
  - pose proof (list_children_sorted_failure d) as Hf. rewrite Hcs in Hf.
    destruct (listing_failure d); [discriminate |]. clear Hf.
    unfold mbind, result_bind. rewrite flat_map_concat_map, map_map.
    rewrite <- flat_map_concat_map.
    apply for_each_outcome.
    intros [i c] Hic l. apply enumerate_from_In in Hic.
    pose proof (height_child _ _ _ Hcs Hic) as Hc.
    destruct (list_children_sorted_In _ _ _ Hcs Hic) as (_ & [b Hb] & _).
    unfold walk_child, show_child. rewrite Hb.
    destruct b; simpl.
    + rewrite Hb, IH by lia.
      destruct (listing_failure c); [reflexivity |].
      destruct (first_failure _); [reflexivity |].
      now rewrite <- app_assoc.
    + now rewrite Hb.
  - rewrite list_children_sorted_failure in Hcs.
    destruct (listing_failure d); [| discriminate].
    now injection Hcs as ->.
Qed.

Lemma walk_rec_lines (k : nat) (d : node) (prefix : string)
  (lines out : list string) :
  (height d < k)%nat ->
  walk_rec k d prefix lines = Ok out ->
  out = lines ++ map line (flat_map preorder (forest_rec k d prefix)).
Proof.
  intros Hk. rewrite walk_rec_outcome by exact Hk.
  destruct (listing_failure d); [discriminate |].
  destruct (first_failure _); [discriminate |].
  now intros [= <-].
Qed.

Lemma render_tree_outcome (root_str : string) (root : node) :
  render_tree root_str root
  = match render_failure root with
    | Some e => Raise e
    | None => Ok (map line (preorder (rendering root_str root)))
    end.
Proof.
  unfold render_tree, walk, render_failure.
  rewrite walk_rec_outcome by lia.
  destruct (listing_failure root); [reflexivity |].
  unfold forest. destruct (first_failure _); reflexivity.
Qed.

Lemma render_tree_lines (root_str : string) (root : node)
  (lines : list string) :
  render_tree root_str root = Ok lines ->
  lines = map line (preorder (rendering root_str root)).
Proof.
  rewrite render_tree_outcome.
  destruct (render_failure root); [discriminate | now intros [= <-]].
Qed.

(** Every rendered entry is the [show_child] of a child that some listed
    directory returned. *)
Lemma forest_rec_inv (k : nat) (d : node) (prefix : string) (s : shown) :
  (height d < k)%nat ->
  In s (flat_map preorder (forest_rec k d prefix)) ->
  exists k' parent prefix' children i c,
    (height c < k')%nat /\
    list_children_sorted parent = Ok children /\
    In (i, c) (enumerate children) /\
    s = show_child (forest_rec k') prefix' (length children) (i, c).
Proof.
  revert d prefix.
  induction k as [|k IH]; intros d prefix Hk; [lia |].
  simpl. destruct (list_children_sorted d) as [cs | e] eqn:Hcs; [| intros []].
  intros Hin.
  apply in_flat_map in Hin as (x & Hx & Hs).
  apply in_map_iff in Hx as ([i c] & <- & Hic).
  assert (height c < k)%nat as Hc.
  { pose proof (height_child _ _ _ Hcs (enumerate_from_In _ _ _ _ Hic)). lia. }
  assert (In s (flat_map preorder (forest_rec k c
            (prefix +:+ indent_of (Z.of_nat i =? Z.of_nat (length cs) - 1)%Z)))
          \/ s = show_child (forest_rec k) prefix (length cs) (i, c)) as [H | ->].
  { unfold show_child in Hs |- *.
    destruct (is_dir c) as [[|] | e]; simpl in Hs.
    - destruct Hs as [<- | Hs]; [now right | now left].
    - destruct Hs as [<- | []]. now right.
    - destruct Hs as [<- | []]. now right. }
  - eapply IH; eauto.
  - exists k, d, prefix, cs, i, c. auto.
Qed.

(** What is known of every rendered entry: it was not ignored, its line is
    a prefix, a branch glyph and its name (with the directory marker), and
    the entries rendered below it are the listing of that entry. *)
Lemma shown_facts (k : nat) (d : node) (prefix : string) (s : shown) :
  (height d < k)%nat ->
  In s (flat_map preorder (forest_rec k d prefix)) ->
  should_ignore (entry s) = Ok false /\
  (exists prefix' is_last d,
      is_dir (entry s) = Ok d /\
      line s = if d
               then prefix' +:+ branch_of is_last +:+ name (entry s) +:+ "/"
               else prefix' +:+ branch_of is_last +:+ name (entry s)) /\
  match list_children_sorted (entry s) with
  | Ok cs => map entry (below s) = cs
  | Raise _ => below s = []
  end.
Proof.
  intros Hk Hin.
  destruct (forest_rec_inv _ _ _ _ Hk Hin)
    as (k' & parent & prefix' & cs & i & c & Hc & Hcs & Hic & ->).
  apply enumerate_from_In in Hic.
  destruct (list_children_sorted_In _ _ _ Hcs Hic) as (Hvis & [b Hb] & _).
  unfold show_child. rewrite Hb.
  destruct b; simpl; rewrite ?Hb.
  - split; [exact Hvis | split].
    + eexists _, _, true. split; reflexivity.
    + destruct k' as [|k']; [lia |]. simpl forest_rec.
      destruct (list_children_sorted c); [| reflexivity].
      rewrite show_child_entry. apply enumerate_from_snd.
  - split; [exact Hvis | split].
    + eexists _, _, false. split; reflexivity.
    + destruct c as [n | n f es | n e]; try discriminate. reflexivity.
Qed.

Lemma forest_children (d : node) (prefix : string) :
  match list_children_sorted d with
  | Ok cs => map entry (forest d prefix) = cs
  | Raise _ => forest d prefix = []
  end.
Proof.
  unfold forest. simpl.
  destruct (list_children_sorted d); [| reflexivity].
  rewrite show_child_entry. apply enumerate_from_snd.
Qed.

Lemma nil_ordered : siblings_ordered [].
Proof. intros [|? ?] ? ? ? ? ?; discriminate. Qed.

Lemma children_match_ordered (e : node) (b : list shown) :
  match list_children_sorted e with
  | Ok cs => map entry b = cs
  | Raise _ => b = []
  end ->
  siblings_ordered (map entry b).
Proof.
  destruct (list_children_sorted e) as [cs | x] eqn:Hcs.
  - intros ->. eapply list_children_sorted_ordered; eauto.
  - intros ->. apply nil_ordered.
Qed.

(** What is known of every node of the rendered tree, the root included:
    the entries rendered below it are its listing. *)
Lemma rendering_children (root_str : string) (root : node) (s : shown) :
  In s (preorder (rendering root_str root)) ->
  match list_children_sorted (entry s) with
  | Ok cs => map entry (below s) = cs
  | Raise _ => below s = []
  end.
Proof.
  simpl. intros [<- | Hin].
  - apply forest_children.
  - apply shown_facts in Hin; [tauto | lia].
Qed.

(** No listing fails in a traversal without a first failure. *)
Lemma first_failure_none (l : list shown) (s : shown) :
  first_failure l = None -> In s l -> is_dir (entry s) = Ok true ->
  listing_failure (entry s) = None.
Proof.
  induction l as [|x l IH]; simpl; [tauto |].
  intros Hnone [-> | Hin] Hdir.
  - rewrite Hdir in Hnone. now destruct (listing_failure (entry s)).
  - apply IH; trivial.
    destruct (is_dir (entry x)) as [[|] | e]; trivial.
    now destruct (listing_failure (entry x)).
Qed.

(** When [render_tree] returns, the listing of every rendered directory
    has succeeded or was denied. *)
Lemma rendered_listing (root_str : string) (root : node)
  (lines : list string) (p : shown) (es : list node) :
  render_tree root_str root = Ok lines ->
  In p (preorder (rendering root_str root)) ->
  iterdir (entry p) = Ok es ->
  list_children_sorted (entry p) = Ok (sort_by order_key (visible es)).
Proof.
  rewrite render_tree_outcome. unfold render_failure.
  intros Hrun Hp Hes.
  assert (listing_failure (entry p) = None) as Hquiet.
  { destruct (listing_failure root) eqn:Hroot; [discriminate |].
    destruct Hp as [<- | Hp]; [exact Hroot |].
    destruct (first_failure _) eqn:Hfirst; [discriminate |].
    apply (first_failure_none _ _ Hfirst Hp).
    apply iterdir_entries in Hes as [n ->]. reflexivity. }
  rewrite list_children_sorted_failure, Hquiet. now rewrite Hes.
Qed.

(** ** Preorder traversals *)

Lemma shown_induction (P : shown -> Prop) :
  (forall e l b, Forall P b -> P (Shown e l b)) -> forall s, P s.
Proof.
  intros step. fix IH 1. intros [e l b]. apply step.
  induction b as [|x b IHb]; constructor; [apply IH | exact IHb].
Qed.

Lemma preorder_head (s : shown) : In s (preorder s).
Proof. destruct s. now left. Qed.

(** The traversal of a node of the tree is a contiguous part of the
    traversal of the tree: a node is directly followed by everything
    below it. *)
Lemma preorder_segment (t s : shown) :
  In s (preorder t) ->
  exists before after, preorder t = before ++ preorder s ++ after.
Proof.
  induction t as [e l b IH] using shown_induction.
  intros [<- | Hin].
  - exists [], []. now rewrite app_nil_r.
  - apply in_flat_map in Hin as (x & Hx & Hs).
    rewrite List.Forall_forall in IH.
    destruct (IH x Hx Hs) as (l1 & l2 & E).
    apply in_split in Hx as (b1 & b2 & ->).
    exists (Shown e l (b1 ++ x :: b2) :: flat_map preorder b1 ++ l1),
      (l2 ++ flat_map preorder b2).
    simpl. rewrite flat_map_app. simpl. rewrite E.
    now rewrite <- !app_assoc.
Qed.

Lemma preorder_below (t p s : shown) :
  In p (preorder t) -> In s (below p) -> In s (preorder t).
Proof.
  intros Hp Hs.
  destruct (preorder_segment _ _ Hp) as (l1 & l2 & ->).
  apply in_or_app. right. apply in_or_app. left.
  destruct p as [e l b]. right.
  apply in_flat_map. exists s. split; [exact Hs | apply preorder_head].
Qed.

Lemma preorder_below_strict (t p s : shown) :
  In p (preorder t) -> In s (below p) ->
  In s (flat_map preorder (below t)).
Proof.
  destruct t as [e l b]. simpl. intros [<- | Hp] Hs.
  - apply in_flat_map. exists s. split; [exact Hs | apply preorder_head].
  - apply in_flat_map in Hp as (x & Hx & Hp).
    apply in_flat_map. exists x. split; [exact Hx |].
    eapply preorder_below; eauto.
Qed.

(** A non-ignored entry of a directory that the walk lists is rendered
    below that directory. *)
Lemma listed_child_shown (root_str : string) (root : node)
  (lines : list string) (p : shown) (es : list node) (c : node) :
  render_tree root_str root = Ok lines ->
  In p (preorder (rendering root_str root)) ->
  iterdir (entry p) = Ok es ->
  In c es ->
  should_ignore c = Ok false ->
  exists s, In s (below p) /\ entry s = c /\
            In s (flat_map preorder (forest root "")).
Proof.
  intros Hrun Hp Hes Hc Hvis.
  pose proof (rendering_children _ _ _ Hp) as Hch.
  rewrite (rendered_listing _ _ _ _ _ Hrun Hp Hes) in Hch.
  assert (In c (map entry (below p))) as Hin.
  { rewrite Hch. apply sort_by_In, filter_In.
    split; [exact Hc | now apply kept_should_ignore]. }
  apply in_map_iff in Hin as (s & Hs & Hsp).
  exists s. repeat split; auto.
  apply (preorder_below_strict (rendering root_str root) p s); auto.
Qed.

(** ** Trees that render alike *)

Lemma for_each_related {A S : Type} (Q : A -> A -> Prop)
  (b1 b2 : nat * A -> S -> result S) (cs cs' : list A) :
  Forall2 Q cs cs' ->
  (forall i c c', In c cs -> In c' cs' -> Q c c' ->
                  forall s, b1 (i, c) s = b2 (i, c') s) ->
  forall start s,
    for_each (enumerate_from start cs) b1 s
    = for_each (enumerate_from start cs') b2 s.
Proof.
  induction 1 as [|c c' cs cs' Hc Hcs IH]; intros Hbody start s; simpl;
    [reflexivity |].
  rewrite (Hbody start c c') by (simpl; auto).
  destruct (b2 (start, c') s); simpl; [| reflexivity].
  apply IH. intros i x x' Hx Hx'. apply Hbody; now right.
Qed.

Lemma similar_walk_rec (R : node -> node -> Prop) (k : nat) (t t' : node)
  (prefix : string) (lines : list string) :
  walk_similar R ->
  (height t < k)%nat -> (height t' < k)%nat -> R t t' ->
  walk_rec k t prefix lines = walk_rec k t' prefix lines.
Proof.
  intros Hsim. revert t t' prefix lines.
  induction k as [|k IH]; intros t t' prefix lines Ht Ht' HR; [lia |].
  specialize (Hsim t t' HR). cbn [walk_rec].
  destruct (list_children_sorted t) as [cs | e] eqn:Hcs;
    destruct (list_children_sorted t') as [cs' | e'] eqn:Hcs';
    try contradiction; unfold mbind, result_bind; [| now subst].
  rewrite (Forall2_length _ _ _ Hsim).
  apply (for_each_related _ _ _ _ _ Hsim).
  intros i c c' Hc Hc' (Hname & Hkind & Hrel) l.
  unfold walk_child. rewrite <- Hkind, <- Hname.
  destruct (is_dir c) as [[|] | e] eqn:Hdir; try reflexivity.
  pose proof (height_child _ _ _ Hcs Hc).
  pose proof (height_child _ _ _ Hcs' Hc').
  apply IH; auto; lia.
Qed.

Lemma similar_walk (R : node -> node -> Prop) (t t' : node)
  (prefix : string) (lines : list string) :
  walk_similar R -> R t t' ->
  walk t prefix lines = walk t' prefix lines.
Proof.
  intros Hsim HR. unfold walk.
  rewrite (walk_rec_depth _ (S (Nat.max (height t) (height t'))) t) by lia.
  rewrite (walk_rec_depth (S (height t'))
             (S (Nat.max (height t) (height t'))) t') by lia.
  apply (similar_walk_rec R); auto; lia.
Qed.

Lemma should_ignore_same (c c' : node) :
  name c = name c' -> is_dir c = is_dir c' ->
  should_ignore c = should_ignore c'.
Proof. unfold should_ignore. now intros -> ->. Qed.

Lemma kept_same (c c' : node) :
  name c = name c' -> is_dir c = is_dir c' -> kept c = kept c'.
Proof. intros Hn Hd. unfold kept. now rewrite (should_ignore_same c c'). Qed.

Lemma order_key_same (c c' : node) :
  name c = name c' -> is_dir c = is_dir c' -> order_key c = order_key c'.
Proof. unfold order_key. now intros -> ->. Qed.

Lemma stat_error_app (l1 l2 : list node) :
  stat_error (l1 ++ l2)
  = match stat_error l1 with
    | Some e => Some e
    | None => stat_error l2
    end.
Proof.
  induction l1 as [|c l1 IH]; simpl; [reflexivity |].
  now destruct (is_dir c).
Qed.

Lemma stat_error_Forall2 (Q : node -> node -> Prop) (l l' : list node) :
  (forall a b, Q a b -> is_dir a = is_dir b) ->
  Forall2 Q l l' -> stat_error l = stat_error l'.
Proof.
  intros HQ. induction 1 as [|a b l l' Hab Hl IH]; simpl; [reflexivity |].
  rewrite (HQ _ _ Hab), IH. reflexivity.
Qed.

(** Two directories whose entries agree one by one in name and kind have
    listings that agree one by one. *)
Lemma listing_Forall2 (Q : node -> node -> Prop) (n : string)
  (f : option exn) (es es' : list node) :
  (forall a b, Q a b -> name a = name b /\ is_dir a = is_dir b) ->
  Forall2 Q es es' ->
  match list_children_sorted (Dir n f es),
        list_children_sorted (Dir n f es') with
  | Ok cs, Ok cs' => Forall2 Q cs cs'
  | Raise e, Raise e' => e = e'
  | _, _ => False
  end.
Proof.
  intros HQ Hrel.
  destruct f as [e |]; [destruct e; cbn; auto |].
  rewrite (list_children_sorted_listing (Dir n None es) es eq_refl).
  rewrite (list_children_sorted_listing (Dir n None es') es' eq_refl).
  rewrite (stat_error_Forall2 Q es es') by (auto; intros; now apply HQ).
  destruct (stat_error es'); [reflexivity |].
  apply sort_by_Forall2.
  - intros a b Hab. apply order_key_same; now apply HQ.
  - apply filter_Forall2; [| exact Hrel].
    intros a b Hab. apply kept_same; now apply HQ.
Qed.

(** ** C1 *)

Lemma list_sum_filter (f : node -> nat) (keep : node -> bool)
  (l : list node) :
  list_sum (map f (List.filter keep l))
  = list_sum (map (fun c => if keep c then f c else 0) l).
Proof.
  induction l as [|c l IH]; simpl; [reflexivity |].
  destruct (keep c); simpl; now rewrite IH.
Qed.

Lemma forest_rec_count (k : nat) (d : node) (prefix : string) :
  (height d < k)%nat ->
  listing_failure d = None ->
  first_failure (flat_map preorder (forest_rec k d prefix)) = None ->
  length (flat_map preorder (forest_rec k d prefix)) = count_entries d.
Proof.
  revert d prefix.
  induction k as [|k IH]; intros d prefix Hk Hquiet; [lia |].
  cbn [forest_rec].
  destruct (list_children_sorted d) as [cs | e] eqn:Hcs.
  - assert (forall xs : list (nat * node),
               (forall i c, In (i, c) xs ->
                  (height c < k)%nat /\ exists b, is_dir c = Ok b) ->
               first_failure
                 (flat_map preorder
                    (map (show_child (forest_rec k) prefix (length cs)) xs))
               = None ->
               length (flat_map preorder
                         (map (show_child (forest_rec k) prefix (length cs)) xs))
               = list_sum (map (fun c => S (count_entries c)) (map snd xs)))
      as Hloop.
    { induction xs as [|[i c] xs IHxs]; intros Hh; [reflexivity |].
      cbn [map flat_map snd list_sum fold_right].
      rewrite first_failure_app, length_app.
      destruct (first_failure
                  (preorder (show_child (forest_rec k) prefix (length cs)
                               (i, c)))) eqn:Hc;
        intros Hrest; [discriminate |].
      rewrite IHxs by (trivial; intros; eapply Hh; right; eauto).
      f_equal.
      destruct (Hh i c (or_introl eq_refl)) as [Hheight [b Hb]].
      unfold show_child in Hc |- *. rewrite Hb in Hc |- *.
      destruct b; simpl in Hc |- *; rewrite Hb in Hc.
      - destruct (listing_failure c) eqn:Hl; [discriminate |].
        now rewrite IH.
      - destruct c as [n | n f es | n e]; try discriminate. reflexivity. }
    intros Hfirst. rewrite Hloop; trivial.
    + unfold enumerate. rewrite enumerate_from_snd.
      rewrite list_children_sorted_failure, Hquiet in Hcs.
      injection Hcs as <-.
      destruct d as [n | n [e |] entries | n e]; try reflexivity.
      simpl iterdir. cbv iota.
      rewrite (Permutation_list_sum
                 (Permutation_map _ (sort_by_perm order_key _))).
      unfold visible. now rewrite list_sum_filter.
    + intros i c Hic. apply enumerate_from_In in Hic.
      pose proof (height_child _ _ _ Hcs Hic).
      destruct (list_children_sorted_In _ _ _ Hcs Hic) as (_ & Hb & _).
      split; [lia | exact Hb].
  - rewrite list_children_sorted_failure, Hquiet in Hcs. discriminate.
Qed.

(** C1: when [render_tree] returns, it returns one line for the root and
    one line for every non-ignored child of every directory it lists. *)
Theorem render_tree_line_count (root_str : string) (root : node)
  (lines : list string) :
  render_tree root_str root = Ok lines ->
  length lines = 1 + count_entries root.
Proof.
  rewrite render_tree_outcome. unfold render_failure.
  destruct (listing_failure root) eqn:Hroot; [discriminate |].
  destruct (first_failure _) eqn:Hfirst; [discriminate |].
  intros [= <-].
  simpl. rewrite length_map. f_equal.
  apply forest_rec_count; [lia | exact Hroot | exact Hfirst].
Qed.

(** ** C2 *)

(** C2: the lines are the preorder traversal of the rendered tree, so the
    line of every entry comes directly before the lines of everything
    below it; the entries rendered below an entry are exactly the listing
    of that entry, in which no directory follows a file and the names of
    one kind are non-decreasing when compared in lower case. *)
Theorem render_tree_preorder_sorted (root_str : string) (root : node)
  (lines : list string) :
  render_tree root_str root = Ok lines ->
  lines = map line (preorder (rendering root_str root)) /\
  forall s, In s (preorder (rendering root_str root)) ->
    (exists before after,
        lines = map line before
                ++ (line s :: map line (flat_map preorder (below s)))
                ++ map line after) /\
    match list_children_sorted (entry s) with
    | Ok cs => map entry (below s) = cs
    | Raise _ => below s = []
    end /\
    siblings_ordered (map entry (below s)).
Proof.
  intros Hrun. apply render_tree_lines in Hrun. split; [exact Hrun |].
  intros s Hs.
  pose proof (rendering_children _ _ _ Hs) as Hch.
  split; [| split; [exact Hch | eapply children_match_ordered; eauto]].
  destruct (preorder_segment _ _ Hs) as (before & after & E).
  exists before, after. rewrite Hrun, E, !map_app.
  now destruct s.
Qed.

(** ** C3 *)

(** C3, as the code has it: [render_tree] either raises or returns the
    complete line sequence, never both.  It raises exactly when a listing
    of the walk fails: when the enumeration of some visited directory
    raises anything but a permission error, or when [is_dir] raises for one
    of the enumerated entries (a permission error included).  The exception
    of the first such listing, in the order of the traversal, reaches the
    caller unchanged.  A directory whose enumeration raises a permission
    error counts as empty. *)
Theorem render_tree_completes_or_raises (root_str : string) (root : node) :
  render_tree root_str root
  = match render_failure root with
    | Some e => Raise e
    | None => Ok (map line (preorder (rendering root_str root)))
    end.
Proof. apply render_tree_outcome. Qed.

(** ** C4 *)

Lemma prune_head (t t' : node) :
  prune t t' -> name t = name t' /\ is_dir t = is_dir t'.
Proof. destruct 1; auto. Qed.

Lemma prune_similar : walk_similar (fun t t' => t = t' \/ prune t t').
Proof.
  assert (forall t cs, list_children_sorted t = Ok cs ->
            Forall2 (fun c c' => name c = name c' /\ is_dir c = is_dir c' /\
                       (is_dir c = Ok true -> c = c' \/ prune c c')) cs cs)
    as Hrefl by (intros; apply Forall2_same; auto).
  intros t t' [<- | Hprune].
  - destruct (list_children_sorted t) eqn:E; eauto.
  - destruct Hprune as [n f l1 l2 g Hdir Hname | n f l1 l2 c c' Hc].
    + assert (list_children_sorted (Dir n f (l1 ++ g :: l2))
              = list_children_sorted (Dir n f (l1 ++ l2))) as ->.
      { destruct f as [e |]; [reflexivity |].
        rewrite (list_children_sorted_listing
                   (Dir n None (l1 ++ g :: l2)) (l1 ++ g :: l2) eq_refl).
        rewrite (list_children_sorted_listing
                   (Dir n None (l1 ++ l2)) (l1 ++ l2) eq_refl).
        rewrite !stat_error_app. cbn [stat_error]. rewrite Hdir.
        unfold visible. rewrite !List.filter_app. cbn [List.filter].
        unfold kept at 2. unfold should_ignore. rewrite Hdir.
        now rewrite (bool_decide_eq_true_2 _ Hname). }
      destruct (list_children_sorted (Dir n f (l1 ++ l2))) eqn:E; eauto.
    + set (Q := fun x y : node => x = y \/ (x = c /\ y = c')).
      assert (forall a b, Q a b -> name a = name b /\ is_dir a = is_dir b)
        as HQ.
      { intros a b [-> | [-> ->]]; [auto | now apply prune_head]. }
      assert (Forall2 Q (l1 ++ c :: l2) (l1 ++ c' :: l2)) as Hrel.
      { apply Forall2_app; [apply Forall2_same; now left |].
        constructor; [now right | apply Forall2_same; now left]. }
      pose proof (listing_Forall2 Q n f _ _ HQ Hrel) as H.
      destruct (list_children_sorted (Dir n f (l1 ++ c :: l2))) as [cs | e];
        destruct (list_children_sorted (Dir n f (l1 ++ c' :: l2)))
          as [cs' | e']; trivial.
      eapply Forall2_impl; [exact H |].
      intros a b Hab. destruct (HQ _ _ Hab) as [? ?].
      repeat split; auto.
      intros _. destruct Hab as [-> | [-> ->]]; auto.
Qed.

Lemma prune_render (root_str : string) (root root' : node) :
  prune root root' -> render_tree root_str root' = render_tree root_str root.
Proof.
  intros Hprune. unfold render_tree.
  destruct (prune_head _ _ Hprune) as [-> _].
  symmetry. apply (similar_walk _ _ _ _ _ prune_similar). now right.
Qed.

Lemma not_ignored_names (c : node) :
  should_ignore c = Ok false ->
  (is_dir c = Ok true -> name c ∉ DEFAULT_IGNORE_DIRS) /\
  (is_dir c = Ok false -> name c ∉ DEFAULT_IGNORE_FILES).
Proof.
  unfold should_ignore.
  destruct (is_dir c) as [[|] | e]; intros H; split; intros Hk Hin;
    solve [ inversion Hk
          | rewrite (bool_decide_eq_true_2 _ Hin) in H; inversion H ].
Qed.

Lemma not_in_sets_not_ignored (c : node) (d : bool) :
  is_dir c = Ok d ->
  (is_dir c = Ok true -> name c ∉ DEFAULT_IGNORE_DIRS) ->
  (is_dir c = Ok false -> name c ∉ DEFAULT_IGNORE_FILES) ->
  should_ignore c = Ok false.
Proof.
  unfold should_ignore. intros -> Hd Hf.
  destruct d.
  - now rewrite (bool_decide_eq_false_2 _ (Hd eq_refl)).
  - now rewrite (bool_decide_eq_false_2 _ (Hf eq_refl)).
Qed.

(** C4, as the code has it: below the root line, every line is the line of
    an entry whose name is not in the ignore set of its kind; and removing a
    directory of an ignored name from anywhere below the root, with all it
    holds, leaves the output as it is.  The root itself is never
    filtered. *)
Theorem ignored_entries_not_rendered (root_str : string) (root : node)
  (lines : list string) :
  render_tree root_str root = Ok lines ->
  lines = (root_name root_str root +:+ "/")
          :: map line (flat_map preorder (forest root "")) /\
  (forall s, In s (flat_map preorder (forest root "")) ->
     (exists prefix is_last d,
         is_dir (entry s) = Ok d /\
         line s = if d
                  then prefix +:+ branch_of is_last +:+ name (entry s) +:+ "/"
                  else prefix +:+ branch_of is_last +:+ name (entry s)) /\
     (is_dir (entry s) = Ok true -> name (entry s) ∉ DEFAULT_IGNORE_DIRS) /\
     (is_dir (entry s) = Ok false ->
      name (entry s) ∉ DEFAULT_IGNORE_FILES)) /\
  (forall root', prune root root' -> render_tree root_str root' = Ok lines).
Proof.
  intros Hrun. split; [| split].
  - now apply render_tree_lines in Hrun.
  - intros s Hs. apply shown_facts in Hs as (Hvis & Hline & _); [| lia].
    split; [exact Hline | now apply not_ignored_names].
  - intros root' Hprune. rewrite <- Hrun. now apply prune_render.
Qed.

(** ** C5 and C9 *)

Lemma first_match_hit {A : Type} (test : A -> result bool)
  (before after : list A) (x : A) :
  (forall a, In a before -> test a = Ok false) -> test x = Ok true ->
  first_match test (before ++ x :: after) = Ok (Some x).
Proof.
  intros Hbefore Hx.
  induction before as [|a before IH]; simpl.
  - now rewrite Hx.
  - rewrite (Hbefore a) by now left.
    apply IH. intros b Hb. apply Hbefore. now right.
Qed.

Lemma first_match_raises {A : Type} (test : A -> result bool)
  (before after : list A) (x : A) (e : exn) :
  (forall a, In a before -> test a = Ok false) -> test x = Raise e ->
  first_match test (before ++ x :: after) = Raise e.
Proof.
  intros Hbefore Hx.
  induction before as [|a before IH]; simpl.
  - now rewrite Hx.
  - rewrite (Hbefore a) by now left.
    apply IH. intros b Hb. apply Hbefore. now right.
Qed.

Lemma first_match_none {A : Type} (test : A -> result bool) (l : list A) :
  (forall a, In a l -> test a = Ok false) <-> first_match test l = Ok None.
Proof.
  induction l as [|a l IH]; simpl; [tauto |]. split.
  - intros Hall. rewrite (Hall a) by now left.
    apply IH. intros b Hb. apply Hall. now right.
  - destruct (test a) as [[|] | e] eqn:Ha; try discriminate.
    intros Hrest b [<- | Hb]; [exact Ha |].
    now apply IH.
Qed.

Lemma first_match_split {A : Type} (test : A -> result bool) (l : list A)
  (x : A) :
  first_match test l = Ok (Some x) ->
  exists l1 l2,
    l = l1 ++ x :: l2 /\ (forall a, In a l1 -> test a = Ok false) /\
    test x = Ok true.
Proof.
  induction l as [|y l IH]; simpl; [discriminate |].
  destruct (test y) as [[|] | e] eqn:Hy; try discriminate.
  - intros [= <-]. exists [], l. repeat split; [intros a [] | exact Hy].
  - intros Hfind. destruct (IH Hfind) as (l1 & l2 & -> & Hl1 & Hx).
    exists (y :: l1), l2. repeat split; [| exact Hx].
    intros a [<- | Ha]; auto.
Qed.

(** The candidates of the fallback pass are the starting directory and
    all its ancestors, up to the root of the file system. *)
Lemma parents_from_prefixes (n : nat) (p q : Path) :
  n = length p ->
  In q (p :: parents_from n p) <-> exists rest, p = q ++ rest.
Proof.
  revert p q. induction n as [|n IH]; intros p q Hn.
  - destruct p; [| discriminate]. simpl. split.
    + intros [<- | []]. now exists [].
    + intros [rest E]. left. symmetry in E.
      now apply app_eq_nil in E as [-> _].
  - destruct (exists_last (l := p)) as (p' & x & ->);
      [intros ->; discriminate |].
    rewrite length_app in Hn. simpl in Hn.
    cbn [parents_from]. rewrite removelast_last.
    change (In q ((p' ++ [x]) :: p' :: parents_from n p'))
      with (p' ++ [x] = q \/ In q (p' :: parents_from n p')).
    rewrite IH by lia. split.
    + intros [<- | [rest ->]].
      * exists []. now rewrite app_nil_r.
      * exists (rest ++ [x]). now rewrite app_assoc.
    + intros [rest E].
      destruct rest as [|y rest' _] using rev_ind.
      * left. now rewrite app_nil_r in E.
      * right. exists rest'. rewrite app_assoc in E.
        now apply app_inj_tail in E as [-> _].
Qed.

(** The candidates get shorter along the list. *)
Lemma parents_from_shorter (n : nat) (p : Path) :
  n = length p ->
  StronglySorted (fun a b : Path => (length b < length a)%nat)
    (p :: parents_from n p).
Proof.
  revert p. induction n as [|n IH]; intros p Hn.
  - repeat constructor.
  - destruct (exists_last (l := p)) as (p' & x & ->);
      [intros ->; discriminate |].
    rewrite length_app in Hn. simpl in Hn.
    cbn [parents_from]. rewrite removelast_last.
    specialize (IH p' ltac:(lia)).
    constructor; [exact IH |].
    apply StronglySorted_inv in IH as [_ Hall].
    rewrite length_app. simpl.
    constructor; [lia |].
    eapply List.Forall_impl; [| exact Hall]. simpl. intros a Ha. lia.
Qed.

Lemma sorted_after {A : Type} (R : A -> A -> Prop) (l1 l2 : list A)
  (x a : A) :
  StronglySorted R (l1 ++ x :: l2) -> In a l2 -> R x a.
Proof.
  induction l1 as [|y l1 IH]; simpl; intros Hs Ha.
  - apply StronglySorted_inv in Hs as [_ Hall].
    rewrite List.Forall_forall in Hall. now apply Hall.
  - apply StronglySorted_inv in Hs as [Hs _]. auto.
Qed.

Lemma sorted_ahead {A : Type} (R : A -> A -> Prop) (l1 l2 : list A)
  (x a : A) :
  StronglySorted R (l1 ++ x :: l2) -> In a l1 -> R a x.
Proof.
  induction l1 as [|y l1 IH]; simpl; intros Hs Ha; [destruct Ha |].
  apply StronglySorted_inv in Hs as [Hs Hall].
  destruct Ha as [<- | Ha]; [| auto].
  rewrite List.Forall_forall in Hall. apply Hall.
  apply in_elt.
Qed.

(** The place of an ancestor among the candidates: the candidates before
    it are the longer prefixes of the starting directory. *)
Lemma candidates_split (cur p rest : Path) :
  cur = p ++ rest ->
  exists before after,
    cur :: parents cur = before ++ p :: after /\
    (forall a, In a before <->
               (exists more, cur = a ++ more) /\ (length p < length a)%nat) /\
    (forall a, In a after -> (length a < length p)%nat).
Proof.
  intros E.
  pose proof (parents_from_prefixes (length cur) cur) as Hprefix.
  pose proof (parents_from_shorter (length cur) cur eq_refl) as Hsorted.
  fold (parents cur) in Hprefix, Hsorted.
  assert (In p (cur :: parents cur)) as Hin
    by (apply Hprefix; [reflexivity | now exists rest]).
  apply in_split in Hin as (before & after & Hsplit).
  exists before, after. split; [exact Hsplit |].
  rewrite Hsplit in Hsorted.
  split; [| intros a Ha; apply (sorted_after _ _ _ _ _ Hsorted Ha)].
  intros a. split.
  - intros Ha. split.
    + apply Hprefix; [reflexivity |].
      rewrite Hsplit. apply in_or_app. now left.
    + apply (sorted_ahead _ _ _ _ _ Hsorted Ha).
  - intros [Hmore Hlen].
    assert (In a (cur :: parents cur)) as Hin
      by (apply Hprefix; trivial).
    rewrite Hsplit in Hin.
    apply in_app_or in Hin as [Hin | [-> | Hin]]; [exact Hin | lia |].
    pose proof (sorted_after _ _ _ _ _ Hsorted Hin). simpl in *. lia.
Qed.

Section RootLocatorFacts.
Variable resolve : Path -> result Path.
Variable path_of_string : string -> Path.

Lemma detect_repo_root_answer (fs : node) (raw : string) (start p : Path) :
  strip raw <> "" ->
  resolve (path_of_string (strip raw)) = Ok p ->
  detect_repo_root resolve path_of_string fs (Ok raw) start = Ok p.
Proof.
  intros Hout Hp. unfold detect_repo_root. simpl.
  rewrite (proj2 (String.eqb_neq _ _) Hout). simpl.
  now rewrite Hp.
Qed.

(** Without a usable answer of the query, the result is that of the pass
    over the starting directory and its ancestors. *)
Lemma detect_repo_root_fallback (fs : node) (git : result string)
  (start : Path) :
  git_failed resolve path_of_string git ->
  detect_repo_root resolve path_of_string fs git start
  = (cur ← resolve start;
     found ← first_match (fun p => path_exists fs (joinpath p ".git"))
               (cur :: parents cur);
     match found with
     | Some p => Ok p
     | None => resolve start
     end).
Proof.
  unfold detect_repo_root, git_failed.
  destruct git as [raw | e]; [| reflexivity].
  simpl. intros [-> | [e ->]]; [reflexivity |].
  now destruct (negb _).
Qed.

(** C5, as the code has it.  A non-blank answer of the version-control
    query is returned resolved, and an exception raised inside the [try]
    block is swallowed.  The pass over the ancestors runs outside the
    [try] block: an exception of [start.resolve()] or of an [exists()]
    test reaches the caller.  Where these calls return, the nearest of the
    resolved starting directory and its ancestors under which [.git] exists
    is returned, and the resolved starting directory when there is none. *)
Theorem detect_repo_root_returns (fs : node) (git : result string)
  (start : Path) :
  (forall raw p,
      git = Ok raw -> strip raw <> "" ->
      resolve (path_of_string (strip raw)) = Ok p ->
      detect_repo_root resolve path_of_string fs git start = Ok p) /\
  (git_failed resolve path_of_string git ->
   (forall e,
       resolve start = Raise e ->
       detect_repo_root resolve path_of_string fs git start = Raise e) /\
   (forall cur p rest,
       resolve start = Ok cur -> cur = p ++ rest ->
       (forall a more,
           cur = a ++ more -> (length p < length a)%nat ->
           path_exists fs (joinpath a ".git") = Ok false) ->
       (path_exists fs (joinpath p ".git") = Ok true ->
        detect_repo_root resolve path_of_string fs git start = Ok p) /\
       (forall e,
           path_exists fs (joinpath p ".git") = Raise e ->
           detect_repo_root resolve path_of_string fs git start = Raise e) /\
       (p = [] -> path_exists fs (joinpath p ".git") = Ok false ->
        detect_repo_root resolve path_of_string fs git start = Ok cur))).
Proof.
  split.
  - intros raw p -> Hout Hp. now apply detect_repo_root_answer.
  - intros Hfail. rewrite (detect_repo_root_fallback _ _ _ Hfail). split.
    + intros e ->. reflexivity.
    + intros cur p rest Hcur E Hlonger. rewrite Hcur.
      unfold mbind, result_bind.
      destruct (candidates_split _ _ _ E)
        as (before & after & -> & Hbefore & Hafter).
      assert (forall a, In a before ->
                path_exists fs (joinpath a ".git") = Ok false) as Hmiss.
      { intros a Ha. apply Hbefore in Ha as [[more Hmore] Hlen]. eauto. }
      split; [| split].
      * intros Hp. now rewrite (first_match_hit _ _ _ _ Hmiss Hp).
      * intros e Hp. now rewrite (first_match_raises _ _ _ _ _ Hmiss Hp).
      * intros -> Hp.
        match goal with
        | |- context [first_match ?test ?l] =>
            assert (first_match test l = Ok None) as ->; [| reflexivity]
        end.
        apply first_match_none. intros a Ha.
        apply in_app_or in Ha as [Ha | [<- | Ha]]; auto.
        apply Hafter in Ha. simpl in Ha. lia.
Qed.

(** C9: in the fallback pass the nearest candidate under which an entry
    named [.git] exists is returned, whatever the kind of that entry: a
    regular file [.git] is accepted like a directory. *)
Theorem fallback_accepts_any_git_entry (fs : node) (git : result string)
  (start cur : Path) (before after : list Path) (p : Path) (e : node) :
  git_failed resolve path_of_string git ->
  resolve start = Ok cur ->
  cur :: parents cur = before ++ p :: after ->
  (forall a, In a before -> lookup fs (joinpath a ".git") = Ok None) ->
  lookup fs (joinpath p ".git") = Ok (Some e) ->
  detect_repo_root resolve path_of_string fs git start = Ok p.
Proof.
  intros Hfail Hcur Hsplit Hbefore Hp.
  rewrite (detect_repo_root_fallback _ _ _ Hfail), Hcur.
  unfold mbind, result_bind. rewrite Hsplit.
  rewrite first_match_hit; [reflexivity | |].
  - intros a Ha. unfold path_exists. now rewrite (Hbefore a Ha).
  - unfold path_exists. now rewrite Hp.
Qed.

End RootLocatorFacts.

(** ** C6 *)

(** C6: the root with [a.txt] and [sub/b.txt] renders as the four lines of
    the scenario, in whichever order the two entries are enumerated. *)
Theorem render_tree_scenario (root_str rootname : string)
  (entries : list node) :
  Permutation entries scenario_entries ->
  render_tree root_str (Dir rootname None entries)
  = Ok [ root_name root_str (Dir rootname None entries) +:+ "/";
         "├── sub/";
         "│   └── b.txt";
         "└── a.txt" ].
Proof.
  intros Hperm. symmetry in Hperm.
  apply Permutation_length_2_inv in Hperm as [-> | ->]; reflexivity.
Qed.

(** ** C7 *)

(** C7: a non-ignored subdirectory of a listed directory whose enumeration
    raises a permission error has an empty listing, and is rendered as one
    directory line with nothing below it. *)
Theorem permission_denied_subdirectory (root_str : string) (root : node)
  (lines : list string) (p : shown) (es : list node) (n : string)
  (hidden : list node) :
  render_tree root_str root = Ok lines ->
  In p (preorder (rendering root_str root)) ->
  iterdir (entry p) = Ok es ->
  In (Dir n (Some PermissionError) hidden) es ->
  should_ignore (Dir n (Some PermissionError) hidden) = Ok false ->
  list_children_sorted (Dir n (Some PermissionError) hidden) = Ok [] /\
  exists s prefix is_last before after,
    In s (below p) /\
    entry s = Dir n (Some PermissionError) hidden /\
    line s = prefix +:+ branch_of is_last +:+ n +:+ "/" /\
    below s = [] /\
    preorder (rendering root_str root) = before ++ s :: after /\
    lines = map line before ++ line s :: map line after.
Proof.
  intros Hrun Hp Hes Hd Hvis. split; [reflexivity |].
  destruct (listed_child_shown _ _ _ _ _ _ Hrun Hp Hes Hd Hvis)
    as (s & Hs & Hentry & Hforest).
  apply shown_facts in Hforest
    as (_ & (prefix & is_last & d & Hkind & Hline) & Hbelow); [| lia].
  rewrite Hentry in Hline, Hbelow, Hkind.
  injection Hkind as <-.
  change (map entry (below s) = []) in Hbelow.
  change (line s = prefix +:+ branch_of is_last +:+ n +:+ "/") in Hline.
  apply map_eq_nil in Hbelow.
  assert (In s (preorder (rendering root_str root))) as Hin
    by (eapply preorder_below; eauto).
  destruct (preorder_segment _ _ Hin) as (before & after & E).
  apply render_tree_lines in Hrun. rewrite E in Hrun.
  destruct s as [e l b]. simpl in Hentry, Hline, Hbelow. subst b.
  change (preorder (Shown e l [])) with [Shown e l []] in E, Hrun.
  exists (Shown e l []), prefix, is_last, before, after.
  repeat split; auto.
  now rewrite map_app in Hrun.
Qed.

(** ** C8 *)

Lemma same_entries_head (t t' : node) :
  same_entries t t' -> name t = name t' /\ is_dir t = is_dir t'.
Proof. destruct 1; auto. Qed.

Lemma distinct_order_keys (l : list node) :
  List.NoDup (map sort_key (visible l)) ->
  List.NoDup (map order_key (visible l)).
Proof.
  intros Hnd.
  assert (map sort_key (visible l) = map Ok (map order_key (visible l)))
    as E.
  { rewrite map_map. apply map_ext_in. intros c Hc.
    apply sort_key_kept. now apply filter_In in Hc. }
  rewrite E in Hnd. now apply NoDup_map_inv in Hnd.
Qed.

(** The listing does not depend on the order of the enumeration where all
    entries can be examined and the sort keys are distinct. *)
Lemma listing_reordered (n : string) (f : option exn) (mid es' : list node) :
  Permutation mid es' ->
  stat_error mid = None ->
  List.NoDup (map sort_key (visible mid)) ->
  list_children_sorted (Dir n f mid) = list_children_sorted (Dir n f es').
Proof.
  intros Hperm Hstat Hnd.
  destruct f as [e |]; [reflexivity |].
  rewrite (list_children_sorted_listing (Dir n None mid) mid eq_refl).
  rewrite (list_children_sorted_listing (Dir n None es') es' eq_refl).
  rewrite Hstat.
  assert (stat_error es' = None) as ->.
  { apply stat_error_none. intros c Hc.
    apply (stat_error_In mid); [exact Hstat |].
    eapply Permutation_in; [symmetry; exact Hperm | exact Hc]. }
  f_equal. apply sort_by_unique.
  - now apply filter_perm.
  - now apply distinct_order_keys.
Qed.

Lemma same_entries_similar : walk_similar same_entries.
Proof.
  intros t t' H.
  destruct H as [n | n e | n f es mid es' Hrel Horder].
  - reflexivity.
  - destruct e; cbn; auto.
  - assert (list_children_sorted (Dir n f mid)
            = list_children_sorted (Dir n f es')) as Hsame.
    { destruct Horder as [-> | (Hperm & Hstat & Hnd)]; [reflexivity |].
      now apply listing_reordered. }
    pose proof (listing_Forall2 same_entries n f es mid same_entries_head
                  Hrel) as H.
    rewrite Hsame in H.
    destruct (list_children_sorted (Dir n f es)) as [cs | e];
      destruct (list_children_sorted (Dir n f es')) as [cs' | e'];
      trivial.
    eapply Forall2_impl; [exact H |].
    intros a b Hab. destruct (same_entries_head _ _ Hab). auto.
Qed.

Lemma same_entries_refl (t : node) : same_entries t t.
Proof.
  revert t. fix IH 1. intros [n | n f es | n e]; try constructor.
  apply (same_dir n f es es es); [| now left].
  induction es as [|c es IHes]; constructor; [apply IH | exact IHes].
Qed.

(** C8: two evaluations of [render_tree] over one file system give the
    same result, lines or exception.  An unchanged file system is
    [same_entries] with itself; the second evaluation may even see the
    entries of a directory enumerated in another order, as long as every
    entry can be examined and the sort keys of its non-ignored entries are
    pairwise distinct. *)
Theorem render_tree_idempotent (root_str : string) (t : node) :
  same_entries t t /\
  forall t', same_entries t t' ->
             render_tree root_str t' = render_tree root_str t.
Proof.
  split; [apply same_entries_refl |].
  intros t' Hsame. unfold render_tree.
  destruct (same_entries_head _ _ Hsame) as [-> _].
  symmetry. now apply (similar_walk _ _ _ _ _ same_entries_similar).
Qed.

(** ** C10 *)

(** C10, as the code has it: [DIR.txt] is in neither ignore set and is not
    ignored, so a file of that name in a directory that the walk lists (the
    root, or a rendered directory) has a line in the output. *)
Theorem dir_txt_is_rendered (root_str : string) (root : node)
  (lines : list string) (p : shown) (es : list node) :
  ("DIR.txt" ∉ DEFAULT_IGNORE_DIRS) /\
  ("DIR.txt" ∉ DEFAULT_IGNORE_FILES) /\
  should_ignore (File "DIR.txt") = Ok false /\
  (render_tree root_str root = Ok lines ->
   In p (preorder (rendering root_str root)) ->
   iterdir (entry p) = Ok es ->
   In (File "DIR.txt") es ->
   exists s prefix is_last,
     In s (below p) /\ entry s = File "DIR.txt" /\
     line s = prefix +:+ branch_of is_last +:+ "DIR.txt" /\
     In (line s) lines).
Proof.
  split; [| split; [| split]].
  - now apply (bool_decide_eq_false_1 ("DIR.txt" ∈ DEFAULT_IGNORE_DIRS)).
  - now apply (bool_decide_eq_false_1 ("DIR.txt" ∈ DEFAULT_IGNORE_FILES)).
  - reflexivity.
  - intros Hrun Hp Hes Hin.
    destruct (listed_child_shown _ _ _ _ _ _ Hrun Hp Hes Hin eq_refl)
      as (s & Hs & Hentry & Hforest).
    pose proof Hforest as Hfacts.
    apply shown_facts in Hfacts
      as (_ & (prefix & is_last & d & Hkind & Hline) & _); [| lia].
    rewrite Hentry in Hline, Hkind. injection Hkind as <-.
    exists s, prefix, is_last. repeat split; auto.
    apply render_tree_lines in Hrun. rewrite Hrun.
    apply in_map. simpl. now right.
Qed.

(** * Further properties of the code *)

(** ** The listing *)

(** X1: the listing of a directory that can be enumerated holds exactly
    the entries that are not ignored, each as often as it was enumerated:
    filtering and sorting neither lose nor repeat an entry.  The listing
    raises when [is_dir] raises for an entry. *)
Theorem list_children_sorted_permutation (p : node) (es : list node) :
  iterdir p = Ok es ->
  match stat_error es with
  | Some e => list_children_sorted p = Raise e
  | None =>
      exists cs, list_children_sorted p = Ok cs /\ Permutation cs (visible es)
  end.
Proof.
  intros Hes. rewrite (list_children_sorted_listing _ _ Hes).
  destruct (stat_error es); [reflexivity |].
  eexists. split; [reflexivity |]. apply sort_by_perm.
Qed.

(** X2: the sort of the listing is stable.  The entries that share a sort
    key (the same kind, and the same name in lower case) come out in the
    order in which the directory enumerated them. *)
Theorem list_children_sorted_stable (p : node) (es cs : list node)
  (k : Z * list N) :
  iterdir p = Ok es ->
  list_children_sorted p = Ok cs ->
  List.filter (fun c => bool_decide (sort_key c = Ok k)) cs
  = List.filter (fun c => bool_decide (sort_key c = Ok k)) (visible es).
Proof.
  intros Hes. rewrite (list_children_sorted_listing _ _ Hes).
  destruct (stat_error es); [discriminate |]. intros [= <-].
  assert (forall l : list node,
            (forall c, In c l -> kept c = true) ->
            List.filter (fun c => bool_decide (sort_key c = Ok k)) l
            = List.filter (fun c => bool_decide (order_key c = k)) l)
    as Hkey.
  { intros l Hl. apply filter_ext_in. intros c Hc.
    rewrite (sort_key_kept c (Hl c Hc)).
    apply bool_decide_ext. split; congruence. }
  rewrite !Hkey.
  - apply sort_by_same_key.
  - intros c Hc. now apply filter_In in Hc.
  - intros c Hc. apply sort_by_In in Hc. now apply filter_In in Hc.
Qed.

(** ** Prefixes and indentation *)

Lemma append_assoc (a b c : string) : (a +:+ b) +:+ c = a +:+ b +:+ c.
Proof.
  induction a as [|x a IH]; [reflexivity |].
  change (String x ((a +:+ b) +:+ c) = String x (a +:+ b +:+ c)).
  now f_equal.
Qed.

Lemma append_empty (s : string) : s +:+ "" = s.
Proof.
  induction s as [|x s IH]; [reflexivity |].
  change (String x (s +:+ "") = String x s). now f_equal.
Qed.

Lemma startswith_append (p rest : string) : startswith (p +:+ rest) p = true.
Proof.
  unfold startswith. induction p as [|x p IH]; [now destruct rest |].
  change (String x p +:+ rest) with (String x (p +:+ rest)).
  simpl. now destruct (ascii_dec x x).
Qed.

Lemma placed_unfold (above : list bool) (last : bool) (e : node)
  (l : string) (b : list shown) :
  placed above last (Shown e l b)
  = (above, last, Shown e l b) :: placed_forest (above ++ [last]) b.
Proof.
  cbn [placed]. f_equal.
  induction b as [|c b IH]; [reflexivity |].
  cbn [placed_forest]. now rewrite <- IH.
Qed.

Lemma placed_snd (above : list bool) (last : bool) (s : shown) :
  map snd (placed above last s) = preorder s.
Proof.
  revert above last. induction s as [e l b IH] using shown_induction.
  intros above last. rewrite placed_unfold. cbn [map snd preorder]. f_equal.
  generalize (above ++ [last]). intros ab.
  induction b as [|x b IHb]; [reflexivity |].
  apply Forall_cons_iff in IH as [Hx Hb].
  cbn [placed_forest flat_map]. now rewrite map_app, Hx, IHb.
Qed.

Lemma placed_forest_snd (above : list bool) (f : list shown) :
  map snd (placed_forest above f) = flat_map preorder f.
Proof.
  induction f as [|x f IH]; [reflexivity |].
  cbn [placed_forest flat_map]. now rewrite map_app, placed_snd, IH.
Qed.

(** The code's test for the last child holds of the child with no sibling
    after it. *)
Lemma last_flag {A B : Type} (f : nat * A -> B) (start count : nat)
  (l : list A) :
  (start + S (length l) = count)%nat ->
  match map f (enumerate_from (S start) l) with
  | [] => true
  | _ :: _ => false
  end = (Z.of_nat start =? Z.of_nat count - 1)%Z.
Proof.
  intros Hcount. destruct l as [|x l]; simpl in *; symmetry.
  - apply Z.eqb_eq. lia.
  - apply Z.eqb_neq. lia.
Qed.

(** The line of an entry below the directory walked with [prefix] is that
    prefix, one indentation unit for each directory between the two, a
    branch glyph and the name. *)
Lemma forest_rec_placed (k : nat) (d : node) (prefix : string)
  (above ab : list bool) (last : bool) (s : shown) :
  In (ab, last, s) (placed_forest above (forest_rec k d prefix)) ->
  exists rest,
    ab = above ++ rest /\
    line s = prefix +:+ indentation rest
             +:+ (if last then "└── " else "├── ")
             +:+ name (entry s)
             +:+ match is_dir (entry s) with Ok true => "/" | _ => "" end.
Proof.
  revert d prefix above.
  induction k as [|k IH]; intros d prefix above; [intros [] |].
  cbn [forest_rec].
  destruct (list_children_sorted d) as [cs | e]; [| intros []].
  assert (forall l start,
            (start + length l = length cs)%nat ->
            In (ab, last, s)
              (placed_forest above
                 (map (show_child (forest_rec k) prefix (length cs))
                    (enumerate_from start l))) ->
            exists rest,
              ab = above ++ rest /\
              line s = prefix +:+ indentation rest
                       +:+ (if last then "└── " else "├── ")
                       +:+ name (entry s)
                       +:+ match is_dir (entry s) with
                           | Ok true => "/"
                           | _ => ""
                           end) as Hloop;
    [| intros Hin; apply (Hloop cs 0%nat); [reflexivity | exact Hin]].
  induction l as [|c l IHl]; intros start Hcount; [intros [] |].
  cbn [enumerate_from map placed_forest].
  rewrite (last_flag _ start (length cs)) by (simpl in Hcount; lia).
  intros Hin. apply in_app_or in Hin as [Hin | Hin].
  - unfold show_child in Hin.
    set (is_last := (Z.of_nat start =? Z.of_nat (length cs) - 1)%Z) in *.
    destruct (is_dir c) as [[|] | e] eqn:Hdir; rewrite placed_unfold in Hin.
    + destruct Hin as [[= <- <- <-] | Hin].
      * exists []. split; [now rewrite app_nil_r |].
        cbn [line entry]. rewrite Hdir. now destruct is_last.
      * apply IH in Hin as (rest & -> & Hline).
        exists (is_last :: rest). split; [now rewrite <- app_assoc |].
        rewrite Hline, append_assoc. now destruct is_last.
    + destruct Hin as [[= <- <- <-] | []].
      exists []. split; [now rewrite app_nil_r |].
      cbn [line entry]. rewrite Hdir, append_empty. now destruct is_last.
    + destruct Hin as [[= <- <- <-] | []].
      exists []. split; [now rewrite app_nil_r |].
      cbn [line entry]. rewrite Hdir, append_empty. now destruct is_last.
  - apply (IHl (S start)); [simpl in Hcount; lia | exact Hin].
Qed.

(** X3: [walk] only appends to the lines it is given, and every line it
    appends starts with the prefix it is given: the lines below a
    directory all carry the prefix computed for that directory. *)
Theorem walk_appends_prefixed_lines (d : node) (prefix : string)
  (lines out : list string) :
  walk d prefix lines = Ok out ->
  exists added,
    out = lines ++ added /\
    List.Forall (fun l => startswith l prefix = true) added.
Proof.
  unfold walk. intros Hrun. apply walk_rec_lines in Hrun; [| lia].
  eexists. split; [exact Hrun |].
  apply List.Forall_forall. intros l Hl.
  apply in_map_iff in Hl as (s & <- & Hs).
  rewrite <- (placed_forest_snd []) in Hs.
  apply in_map_iff in Hs as ([[ab last] s'] & Hsnd & Hin).
  simpl in Hsnd. subst s'.
  apply forest_rec_placed in Hin as (rest & _ & ->).
  apply startswith_append.
Qed.

(** X4: below the root line, the line of an entry is one indentation unit
    for every directory between the root and the entry, the outermost
    first (four blanks below a directory that is the last child of its
    parent, a vertical bar and three blanks below any other), then the
    corner glyph if the entry is the last child of its parent and the tee
    glyph otherwise, then the name of the entry, with the directory marker
    for a directory. *)
Theorem rendered_line_indentation (root_str : string) (root : node)
  (lines : list string) :
  render_tree root_str root = Ok lines ->
  lines = (root_name root_str root +:+ "/")
          :: map (fun x => line (snd x)) (placed_forest [] (forest root "")) /\
  forall above last s,
    In (above, last, s) (placed_forest [] (forest root "")) ->
    line s = indentation above
             +:+ (if last then "└── " else "├── ")
             +:+ name (entry s)
             +:+ match is_dir (entry s) with Ok true => "/" | _ => "" end.
Proof.
  intros Hrun. split.
  - apply render_tree_lines in Hrun. rewrite Hrun. simpl. f_equal.
    now rewrite <- (placed_forest_snd []), map_map.
  - intros above last s Hin.
    apply forest_rec_placed in Hin as (rest & -> & Hline).
    exact Hline.
Qed.

(** ** Branch glyphs *)

(** The entries rendered below a node of the rendered tree are the
    [show_child] of one listing, all with one prefix. *)
Lemma below_shape (root_str : string) (root : node) (s : shown) :
  In s (preorder (rendering root_str root)) ->
  exists sub prefix cs,
    below s = map (show_child sub prefix (length cs)) (enumerate cs).
Proof.
  assert (forall k d prefix, exists sub cs,
             forest_rec (S k) d prefix
             = map (show_child sub prefix (length cs)) (enumerate cs))
    as Hforest.
  { intros k d prefix. simpl.
    destruct (list_children_sorted d) as [cs | e].
    - now exists (forest_rec k), cs.
    - now exists (forest_rec k), []. }
  simpl. intros [<- | Hin].
  - destruct (Hforest (height root) root "") as (sub & cs & E).
    now exists sub, "", cs.
  - apply forest_rec_inv in Hin
      as (k & parent & prefix & cs & i & c & Hc & _ & _ & ->); [| lia].
    unfold show_child. destruct (is_dir c) as [[|] | e]; simpl.
    + destruct k as [|k]; [lia |].
      destruct (Hforest k c
                  (prefix +:+ indent_of
                     (Z.of_nat i =? Z.of_nat (length cs) - 1)%Z))
        as (sub & cs' & E).
      eauto.
    + now exists (forest_rec k), "", [].
    + now exists (forest_rec k), "", [].
Qed.

(** X5: the children of every rendered directory are drawn with one
    common prefix; the last of them, and only the last, is drawn with the
    corner glyph, the others with the tee glyph. *)
Theorem corner_glyph_on_last_child (root_str : string) (root : node)
  (lines : list string) (s : shown) :
  render_tree root_str root = Ok lines ->
  In s (preorder (rendering root_str root)) ->
  lines = map line (preorder (rendering root_str root)) /\
  exists prefix,
    forall i b,
      nth_error (below s) i = Some b ->
      line b = match is_dir (entry b) with
               | Ok true =>
                   prefix +:+ branch_of (Nat.eqb (S i) (length (below s)))
                   +:+ name (entry b) +:+ "/"
               | _ =>
                   prefix +:+ branch_of (Nat.eqb (S i) (length (below s)))
                   +:+ name (entry b)
               end.
Proof.
  intros Hrun Hs. split; [now apply render_tree_lines |].
  destruct (below_shape _ _ _ Hs) as (sub & prefix & cs & ->).
  exists prefix. intros i b Hb.
  rewrite length_map. unfold enumerate in *.
  rewrite enumerate_from_length.
  rewrite nth_error_map in Hb.
  destruct (nth_error (enumerate_from 0 cs) i) as [[j c] |] eqn:Hi;
    [| discriminate].
  apply enumerate_from_nth in Hi as [Hj Hc]. simpl in Hj. subst j.
  injection Hb as <-.
  assert ((Z.of_nat i =? Z.of_nat (length cs) - 1)%Z
          = Nat.eqb (S i) (length cs)) as Hlast.
  { destruct (Nat.eqb_spec (S i) (length cs)) as [E | E].
    - apply Z.eqb_eq. lia.
    - apply Z.eqb_neq. lia. }
  unfold show_child. rewrite Hlast.
  destruct (is_dir c) as [[|] | e] eqn:Hdir; simpl; now rewrite Hdir.
Qed.

(** ** Entries that are rendered *)

(** When [render_tree] returns, every entry of a rendered directory could
    be examined. *)
Lemma rendered_entries_examined (root_str : string) (root : node)
  (lines : list string) (p : shown) (es : list node) (c : node) :
  render_tree root_str root = Ok lines ->
  In p (preorder (rendering root_str root)) ->
  iterdir (entry p) = Ok es ->
  In c es ->
  exists d, is_dir c = Ok d.
Proof.
  intros Hrun Hp Hes Hc.
  pose proof (rendered_listing _ _ _ _ _ Hrun Hp Hes) as Hcs.
  rewrite (list_children_sorted_listing _ _ Hes) in Hcs.
  destruct (stat_error es) eqn:Hstat; [discriminate |].
  now apply (stat_error_In es).
Qed.

(** X6: every entry of a directory that the walk lists has a line, unless
    its name is in the ignore set of its kind.  No other name is left out:
    hidden entries, whose names start with a dot, are rendered, and so are
    a file with the name of an ignored directory and a directory with the
    name of an ignored file. *)
Theorem non_ignored_entry_is_rendered (root_str : string) (root : node)
  (lines : list string) (p : shown) (es : list node) (c : node) :
  render_tree root_str root = Ok lines ->
  In p (preorder (rendering root_str root)) ->
  iterdir (entry p) = Ok es ->
  In c es ->
  (is_dir c = Ok true -> name c ∉ DEFAULT_IGNORE_DIRS) ->
  (is_dir c = Ok false -> name c ∉ DEFAULT_IGNORE_FILES) ->
  exists s, In s (below p) /\ entry s = c /\ In (line s) lines.
Proof.
  intros Hrun Hp Hes Hc Hd Hf.
  destruct (rendered_entries_examined _ _ _ _ _ _ Hrun Hp Hes Hc)
    as [d Hkind].
  pose proof (not_in_sets_not_ignored c d Hkind Hd Hf) as Hvis.
  destruct (listed_child_shown _ _ _ _ _ _ Hrun Hp Hes Hc Hvis)
    as (s & Hs & Hentry & Hforest).
  exists s. repeat split; auto.
  apply render_tree_lines in Hrun. rewrite Hrun.
  apply in_map. simpl. now right.
Qed.








(** ** The root that the fallback pass returns *)

Section RootLocatorResult.
Variable resolve : Path -> result Path.
Variable path_of_string : string -> Path.

(** X8: when the version-control query gives no usable answer, the root
    that [detect_repo_root] returns is the resolved starting directory or
    one of its ancestors, never a path elsewhere.  Either [.git] exists
    under it and under no candidate nearer to the starting directory, or
    [.git] exists under no candidate and it is the resolved starting
    directory itself. *)
Theorem detect_repo_root_fallback_result (fs : node) (git : result string)
  (start p : Path) :
  git_failed resolve path_of_string git ->
  detect_repo_root resolve path_of_string fs git start = Ok p ->
  exists cur,
    resolve start = Ok cur /\
    (exists rest, cur = p ++ rest) /\
    ((path_exists fs (joinpath p ".git") = Ok true /\
      forall a rest,
        cur = a ++ rest -> (length p < length a)%nat ->
        path_exists fs (joinpath a ".git") = Ok false) \/
     (p = cur /\
      forall a rest,
        cur = a ++ rest ->
        path_exists fs (joinpath a ".git") = Ok false)).
Proof.
  intros Hfail. rewrite (detect_repo_root_fallback _ _ _ _ _ Hfail).
  destruct (resolve start) as [cur | e] eqn:Hcur; [| discriminate].
  unfold mbind, result_bind.
  pose proof (parents_from_prefixes (length cur) cur) as Hprefix.
  fold (parents cur) in Hprefix.
  destruct (first_match _ _) as [[x |] | e] eqn:Hfind;
    intros H; try discriminate; injection H as <-; exists cur;
    (split; [reflexivity |]).
  - apply first_match_split in Hfind as (l1 & l2 & Hsplit & Hl1 & Hx).
    split.
    + apply Hprefix; [reflexivity |].
      rewrite Hsplit. apply in_or_app. right. now left.
    + left. split; [exact Hx |].
      intros a rest Ha Hlonger.
      assert (In a (cur :: parents cur)) as Hin
        by (apply Hprefix; [reflexivity | now exists rest]).
      rewrite Hsplit in Hin.
      apply in_app_or in Hin as [Hin | [-> | Hin]].
      * now apply Hl1.
      * lia.
      * pose proof (parents_from_shorter (length cur) cur eq_refl)
          as Hsorted.
        fold (parents cur) in Hsorted.
        rewrite Hsplit in Hsorted.
        pose proof (sorted_after _ _ _ _ _ Hsorted Hin). simpl in *. lia.
  - split; [exists []; now rewrite app_nil_r |].
    right. split; [reflexivity |].
    intros a rest Ha.
    apply (proj2 (first_match_none _ _) Hfind).
    apply Hprefix; [reflexivity | now exists rest].
Qed.

End RootLocatorResult.

(** ** The text of the output file *)

Lemma append_cons (a : ascii) (b s : string) :
  String a b +:+ s = String a (b +:+ s).
Proof. reflexivity. Qed.

Lemma snoc_not_empty (b : string) (c : ascii) : b +:+ String c "" <> "".
Proof. destruct b; [| rewrite append_cons]; discriminate. Qed.

Lemma snoc_cases (a : ascii) (s b : string) (c : ascii) :
  String a s = b +:+ String c "" ->
  (s = "" /\ b = "" /\ a = c) \/
  exists b', b = String a b' /\ s = b' +:+ String c "".
Proof.
  destruct b as [|y b'].
  - intros [= -> ->]. now left.
  - rewrite append_cons. intros [= -> ->]. right. now exists b'.
Qed.

Lemma string_snoc (s : string) :
  s <> "" -> exists b c, s = b +:+ String c "".
Proof.
  induction s as [|a s IH]; [congruence |]. intros _.
  destruct s as [|x r].
  - now exists "", a.
  - destruct IH as (b & c & E); [discriminate |].
    exists (String a b), c. now rewrite append_cons, <- E.
Qed.

Lemma snoc_inj (a b : string) (c d : ascii) :
  a +:+ String c "" = b +:+ String d "" -> a = b /\ c = d.
Proof.
  revert b. induction a as [|x a IH]; intros b E.
  - change (String c "" = b +:+ String d "") in E.
    apply snoc_cases in E as [(_ & -> & ->) | (b' & _ & E)]; [auto |].
    symmetry in E. now apply snoc_not_empty in E.
  - rewrite append_cons in E.
    apply snoc_cases in E as [(E & _ & _) | (b' & -> & E)].
    + now apply snoc_not_empty in E.
    + apply IH in E as [-> ->]. auto.
Qed.

Lemma append_inj (a s t : string) : a +:+ s = a +:+ t -> s = t.
Proof.
  induction a as [|x a IH]; [trivial |].
  rewrite !append_cons. intros [= E]. auto.
Qed.

(** The first bytes of the whitespace characters of more than one byte. *)
Lemma space2_bytes (a b : ascii) :
  space2 a b = true -> nat_of_ascii a = 194%nat.
Proof.
  unfold space2. intros H. apply andb_true_iff in H as [H _].
  now apply Nat.eqb_eq in H.
Qed.

Lemma space3_bytes (a b c : ascii) :
  space3 a b c = true ->
  (nat_of_ascii a = 225 \/ nat_of_ascii a = 226 \/ nat_of_ascii a = 227)%nat /\
  (nat_of_ascii b = 154 \/ nat_of_ascii b = 128 \/ nat_of_ascii b = 129)%nat /\
  (128 <= nat_of_ascii c)%nat.
Proof.
  unfold space3. cbv beta iota zeta.
  repeat (rewrite orb_true_iff || rewrite andb_true_iff
          || rewrite Nat.eqb_eq || rewrite Nat.leb_le).
  intros H. repeat split; lia.
Qed.

Lemma space2_not_space1 (a b : ascii) :
  space2 a b = true -> space1 a = false.
Proof.
  intros H. apply space2_bytes in H. unfold space1. cbv zeta.
  now rewrite H.
Qed.

Lemma space3_not_shorter (a b c : ascii) :
  space3 a b c = true -> space1 a = false /\ space2 a b = false.
Proof.
  intros H. apply space3_bytes in H as (Ha & _ & _).
  unfold space1, space2. cbv zeta.
  destruct Ha as [-> | [-> | ->]]; split; reflexivity.
Qed.

(** [lstrip] removes a whitespace character at the front. *)
Lemma lstrip_token (t w : string) :
  space_token t -> lstrip (t +:+ w) = lstrip w.
Proof.
  intros [(a & -> & Ha) | [(a & b & -> & Hab) | (a & b & c & -> & Habc)]].
  - change (lstrip (String a w) = lstrip w).
    destruct w; cbn [lstrip]; now rewrite Ha.
  - change (lstrip (String a (String b w)) = lstrip w).
    cbn [lstrip]. now rewrite (space2_not_space1 a b Hab), Hab.
  - change (lstrip (String a (String b (String c w))) = lstrip w).
    destruct (space3_not_shorter a b c Habc) as [H1 H2].
    cbn [lstrip]. now rewrite H1, H2, Habc.
Qed.

(** What [rstrip] removes is whitespace from end to end. *)
Lemma rstrip_spec (s : string) :
  exists w, s = rstrip s +:+ w /\ blank w = true.
Proof.
  induction s as [|a s IH]; [now exists "" |].
  cbn [rstrip]. destruct (blank (String a s)) eqn:Hblank.
  - now exists (String a s).
  - destruct IH as (w & E & Hw). exists w.
    split; [| exact Hw]. rewrite append_cons. now f_equal.
Qed.

(** [rstrip] stops at the first place after which all is whitespace. *)
Lemma rstrip_minimal (s b u w : string) :
  rstrip s = b +:+ u -> u <> "" -> s = rstrip s +:+ w ->
  blank (u +:+ w) = false.
Proof.
  revert b. induction s as [|a s IH]; intros b Hcut Hu Hw.
  - destruct b; [| discriminate]. change ("" = u) in Hcut. congruence.
  - cbn [rstrip] in Hcut, Hw.
    destruct (blank (String a s)) eqn:Hblank.
    + destruct b; [| discriminate]. change ("" = u) in Hcut. congruence.
    + destruct b as [|x b].
      * change (String a (rstrip s) = u) in Hcut. subst u.
        now rewrite <- Hw.
      * rewrite append_cons in Hcut, Hw.
        injection Hcut as -> Hcut. injection Hw as Hw.
        now apply (IH b).
Qed.

(** [rstrip] leaves no whitespace at the end. *)
Lemma rstrip_clean (s : string) : ~ ends_with_whitespace (rstrip s).
Proof.
  intros (b & t & E & Ht).
  destruct (rstrip_spec s) as (w & Hw & Hblank).
  assert (t <> "") as Hne.
  { destruct Ht as [(a & -> & _) | [(a & c & -> & _) | (a & c & d & -> & _)]];
      discriminate. }
  pose proof (rstrip_minimal s b t w E Hne Hw) as Hcut.
  unfold blank in Hcut, Hblank.
  rewrite (lstrip_token t w Ht) in Hcut.
  destruct (lstrip w); discriminate.
Qed.

(** A string that is whitespace from end to end, and not empty, ends with
    a whitespace character. *)
Lemma blank_ends_with_whitespace (n : nat) (w : string) :
  (String.length w <= n)%nat -> blank w = true -> w <> "" ->
  ends_with_whitespace w.
Proof.
  revert w. induction n as [|n IH]; intros w Hlen Hblank Hne.
  - destruct w; [congruence | simpl in Hlen; lia].
  - assert (forall front rest : string,
              w = front +:+ rest -> space_token front ->
              (String.length rest <= n)%nat ->
              ends_with_whitespace w) as Hstep.
    { intros front rest -> Hfront Hrest.
      unfold blank in Hblank. rewrite (lstrip_token _ _ Hfront) in Hblank.
      destruct rest as [|x rest'].
      - exists "", front. now rewrite append_empty.
      - destruct (IH (String x rest') Hrest Hblank) as (b & t & E & Ht);
          [discriminate |].
        exists (front +:+ b), t. split; [| exact Ht].
        now rewrite E, append_assoc. }
    destruct w as [|a s1]; [congruence |]. simpl in Hlen.
    destruct (space1 a) eqn:H1.
    { apply (Hstep (String a "") s1); [reflexivity | left; eauto | lia]. }
    destruct s1 as [|b s2].
    { unfold blank in Hblank. cbn [lstrip] in Hblank.
      rewrite H1 in Hblank. discriminate. }
    simpl in Hlen.
    destruct (space2 a b) eqn:H2.
    { apply (Hstep (String a (String b "")) s2);
        [reflexivity | right; left; eauto | lia]. }
    destruct s2 as [|c s3].
    { unfold blank in Hblank. cbn [lstrip] in Hblank.
      rewrite H1, H2 in Hblank. discriminate. }
    simpl in Hlen.
    destruct (space3 a b c) eqn:H3.
    { apply (Hstep (String a (String b (String c ""))) s3);
        [reflexivity | right; right; eauto 6 | lia]. }
    unfold blank in Hblank. cbn [lstrip] in Hblank.
    rewrite H1, H2, H3 in Hblank. discriminate.
Qed.

(** [rstrip] changes nothing where there is nothing to strip. *)
Lemma rstrip_unchanged (s : string) :
  ~ ends_with_whitespace s -> rstrip s = s.
Proof.
  intros Hclean.
  destruct (rstrip_spec s) as (w & Hw & Hblank).
  destruct w as [|x w'].
  - now rewrite append_empty in Hw.
  - exfalso. apply Hclean.
    destruct (blank_ends_with_whitespace _ (String x w') (Nat.le_refl _)
                Hblank) as (b & t & E & Ht); [discriminate |].
    exists (rstrip s +:+ b), t. split; [| exact Ht].
    now rewrite Hw at 1; rewrite E, append_assoc.
Qed.

(** The joined lines are the last line behind a front that is empty or
    ends with the separator. *)
Lemma concat_snoc (sep : string) (init : list string) (last_line : string) :
  exists front,
    String.concat sep (init ++ [last_line]) = front +:+ last_line /\
    (front = "" \/ exists f, front = f +:+ sep).
Proof.
  induction init as [|x init IH]; [exists ""; auto |].
  destruct IH as (front & E & Hfront).
  exists (x +:+ sep +:+ front). split.
  - simpl. destruct (init ++ [last_line]) eqn:Hrest.
    + now destruct init.
    + rewrite E. now rewrite !append_assoc.
  - right. destruct Hfront as [-> | [f ->]].
    + exists x. now rewrite append_empty.
    + exists (x +:+ sep +:+ f). now rewrite !append_assoc.
Qed.

Lemma snoc_suffix (front l x : string) (a : ascii) :
  front +:+ l = x +:+ String a "" -> l <> "" ->
  exists l', l = l' +:+ String a "".
Proof.
  intros E Hl. destruct (string_snoc l Hl) as (l' & y & ->).
  rewrite <- append_assoc in E. apply snoc_inj in E as [_ ->].
  now exists l'.
Qed.

Lemma front_last_byte (front x : string) (a : ascii) :
  front = "" \/ (exists f, front = f +:+ newline) ->
  front = x +:+ String a "" -> nat_of_ascii a = 10%nat.
Proof.
  intros [-> | [f ->]] E.
  - symmetry in E. now apply snoc_not_empty in E.
  - unfold newline in E. now apply snoc_inj in E as [_ <-].
Qed.

(** Whitespace at the end of the joined lines is whitespace at the end of
    the last line: no whitespace character reaches across a newline. *)
Lemma ends_with_whitespace_suffix (front s : string) :
  front = "" \/ (exists f, front = f +:+ newline) ->
  s <> "" -> ends_with_whitespace (front +:+ s) -> ends_with_whitespace s.
Proof.
  intros Hfront Hs (x & t & E & Ht).
  destruct Ht as [(a & -> & Ha) | [(a & b & -> & Hab) | (a & b & c & -> & Habc)]].
  - destruct (snoc_suffix _ _ _ _ E Hs) as [l ->].
    exists l, (String a ""). split; [reflexivity | left; eauto].
  - change (x +:+ String a (String b ""))
      with (x +:+ (String a "" +:+ String b "")) in E.
    rewrite <- append_assoc in E.
    destruct (snoc_suffix _ _ _ _ E Hs) as [l1 ->].
    rewrite <- append_assoc in E. apply snoc_inj in E as [E _].
    destruct (string_dec l1 "") as [-> | Hl1].
    + rewrite append_empty in E.
      pose proof (front_last_byte _ _ _ Hfront E) as Hbyte.
      apply space2_bytes in Hab. lia.
    + destruct (snoc_suffix _ _ _ _ E Hl1) as [l2 ->].
      exists l2, (String a (String b "")).
      split; [now rewrite append_assoc | right; left; eauto].
  - change (x +:+ String a (String b (String c "")))
      with (x +:+ (String a "" +:+ (String b "" +:+ String c ""))) in E.
    rewrite <- !append_assoc in E.
    destruct (snoc_suffix _ _ _ _ E Hs) as [l1 ->].
    rewrite <- append_assoc in E. apply snoc_inj in E as [E _].
    apply space3_bytes in Habc as Hbytes. destruct Hbytes as (Ha & Hb & _).
    destruct (string_dec l1 "") as [-> | Hl1].
    + rewrite append_empty in E.
      pose proof (front_last_byte _ _ _ Hfront E) as Hbyte. lia.
    + destruct (snoc_suffix _ _ _ _ E Hl1) as [l2 ->].
      rewrite <- append_assoc in E. apply snoc_inj in E as [E _].
      destruct (string_dec l2 "") as [-> | Hl2].
      * rewrite append_empty in E.
        pose proof (front_last_byte _ _ _ Hfront E) as Hbyte. lia.
      * destruct (snoc_suffix _ _ _ _ E Hl2) as [l3 ->].
        exists l3, (String a (String b (String c ""))).
        split; [now rewrite !append_assoc | right; right; eauto 6].
Qed.

(** X9: the text that [main] writes ends with exactly one newline: it is a
    body that does not end with a whitespace character (a newline is one),
    followed by one newline, whatever the lines are. *)
Theorem file_content_single_trailing_newline (tree_lines : list string) :
  exists body,
    file_content tree_lines = body +:+ newline /\
    ~ ends_with_whitespace body.
Proof.
  exists (rstrip (String.concat newline tree_lines)).
  split; [reflexivity | apply rstrip_clean].
Qed.

(** X10: the text that [main] writes is the lines joined by newlines, with
    a final newline, when the last line is not empty and does not end with
    a whitespace character: nothing of the rendered tree is lost. *)
Theorem file_content_keeps_lines (init : list string) (last_line : string) :
  last_line <> "" ->
  ~ ends_with_whitespace last_line ->
  file_content (init ++ [last_line])
  = String.concat newline (init ++ [last_line]) +:+ newline.
Proof.
  intros Hne Hclean. unfold file_content. f_equal.
  apply rstrip_unchanged.
  destruct (concat_snoc newline init last_line) as (front & -> & Hfront).
  intros Hends. apply Hclean.
  now apply (ends_with_whitespace_suffix front).
Qed.

End Host.

(** * The properties at work

    The examples run the code with [ascii_lower] and [byte_points] as the
    host: all their names are ASCII. *)

(** ** The runtime helpers on examples *)

Example lower_mixed_case : ascii_lower "ReadMe.TXT" = "readme.txt".
Proof. reflexivity. Qed.

Example strip_git_output :
  strip (" /home/u/proj" +:+ newline) = "/home/u/proj".
Proof. reflexivity. Qed.

(** A no-break space, U+00A0, and an ideographic space, U+3000, are
    stripped like a blank. *)
Example rstrip_unicode_whitespace :
  rstrip ("a b" +:+ String (ascii_of_nat 194) (String (ascii_of_nat 160) "")
          +:+ String (ascii_of_nat 227)
                (String (ascii_of_nat 128) (String (ascii_of_nat 128) "")))
  = "a b".
Proof. reflexivity. Qed.

Example parents_nearest_first :
  parents ["home"; "u"; "proj"] = [["home"; "u"]; ["home"]; []].
Proof. reflexivity. Qed.

Example sort_directories_first :
  list_children_sorted ascii_lower byte_points
    (Dir "r" None [File "b"; Dir "Z" None []; File "A"; Dir "a" None []])
  = Ok [Dir "a" None []; Dir "Z" None []; File "A"; File "b"].
Proof. reflexivity. Qed.

Example render_project :
  render_tree ascii_lower byte_points "/home/proj" project
  = Ok ["proj/"; "├── sub/"; "│   └── b.txt"; "├── Zed/"; "├── a.txt";
        "└── DIR.txt"].
Proof. reflexivity. Qed.

(** ** C1 to C10 *)

(** C1 at the example project. *)
Lemma render_tree_line_count_witness :
  length ["proj/"; "├── sub/"; "│   └── b.txt"; "├── Zed/"; "├── a.txt";
          "└── DIR.txt"]
  = 1 + count_entries project.
Proof.
  apply (render_tree_line_count ascii_lower byte_points "/home/proj" project).
  reflexivity.
Defined.

(** C2 at the example project. *)
Lemma render_tree_preorder_sorted_witness :
  let lines := ["proj/"; "├── sub/"; "│   └── b.txt"; "├── Zed/"; "├── a.txt";
                "└── DIR.txt"] in
  let tree := rendering ascii_lower byte_points "/home/proj" project in
  lines = map line (preorder tree) /\
  forall s, In s (preorder tree) ->
    (exists before after,
        lines = map line before
                ++ (line s :: map line (flat_map preorder (below s)))
                ++ map line after) /\
    match list_children_sorted ascii_lower byte_points (entry s) with
    | Ok cs => map entry (below s) = cs
    | Raise _ => below s = []
    end /\
    siblings_ordered ascii_lower byte_points (map entry (below s)).
Proof.
  apply (render_tree_preorder_sorted ascii_lower byte_points "/home/proj"
           project).
  reflexivity.
Defined.

(** C3: an enumeration that fails with an I/O error makes [render_tree]
    raise that error. *)
Lemma render_tree_raises_on_io_error :
  iterdir (Dir "disk" (Some OSError) []) = Raise OSError /\
  render_tree ascii_lower byte_points "/r" broken = Raise OSError.
Proof. split; reflexivity. Qed.

(** In a directory that may be read but not searched, [is_dir] raises a
    permission error, which no handler catches. *)
Example render_tree_raises_in_unsearchable_directory :
  iterdir unsearchable = Ok [Opaque "a.txt" PermissionError] /\
  render_tree ascii_lower byte_points "/r" unsearchable
  = Raise PermissionError.
Proof. split; reflexivity. Qed.

(** C4: the root line is printed also when the root carries an ignored
    name. *)
Lemma root_line_with_ignored_name :
  "build" ∈ DEFAULT_IGNORE_DIRS /\
  render_tree ascii_lower byte_points "/w/build" build_root
  = Ok ["build/"; "└── a.txt"].
Proof.
  split; [| reflexivity].
  now apply (bool_decide_eq_true_1 ("build" ∈ DEFAULT_IGNORE_DIRS)).
Qed.

(** C4 at the example project. *)
Lemma ignored_entries_not_rendered_witness :
  let lines := ["proj/"; "├── sub/"; "│   └── b.txt"; "├── Zed/"; "├── a.txt";
                "└── DIR.txt"] in
  let below_root := forest ascii_lower byte_points project "" in
  lines = (root_name "/home/proj" project +:+ "/")
          :: map line (flat_map preorder below_root) /\
  (forall s, In s (flat_map preorder below_root) ->
     (exists prefix is_last d,
         is_dir (entry s) = Ok d /\
         line s = if d
                  then prefix +:+ branch_of is_last +:+ name (entry s) +:+ "/"
                  else prefix +:+ branch_of is_last +:+ name (entry s)) /\
     (is_dir (entry s) = Ok true -> name (entry s) ∉ DEFAULT_IGNORE_DIRS) /\
     (is_dir (entry s) = Ok false ->
      name (entry s) ∉ DEFAULT_IGNORE_FILES)) /\
  (forall root', prune project root' ->
                 render_tree ascii_lower byte_points "/home/proj" root'
                 = Ok lines).
Proof.
  apply (ignored_entries_not_rendered ascii_lower byte_points "/home/proj"
           project).
  reflexivity.
Defined.

(** C5: the pass over the ancestors raises when [exists()] raises.  The
    query cannot run, and the working directory lies below a directory
    that may not be searched. *)
Lemma detect_repo_root_raises_below_locked_directory :
  path_exists locked_fs ["locked"; "proj"; ".git"] = Raise PermissionError /\
  detect_repo_root (fun p => Ok p) (fun _ => []) locked_fs
    (Raise FileNotFoundError) ["locked"; "proj"]
  = Raise PermissionError.
Proof. split; reflexivity. Qed.

(** The pass over the ancestors raises when [start.resolve()] raises, as
    it does on a loop of symbolic links. *)
Example detect_repo_root_raises_on_symlink_loop :
  detect_repo_root (fun _ => Raise RuntimeError) (fun _ => []) plain_fs
    (Raise FileNotFoundError) ["home"; "p"]
  = Raise RuntimeError.
Proof. reflexivity. Qed.

(** C5 in a worktree, started from a directory below its root: the query
    cannot run, and the parent of the starting directory is returned. *)
Lemma detect_repo_root_returns_witness :
  detect_repo_root (fun p => Ok p) (fun _ => []) worktree_fs
    (Raise FileNotFoundError) ["home"; "wt"; "src"]
  = Ok ["home"; "wt"].
Proof.
  destruct (detect_repo_root_returns (fun p => Ok p) (fun _ => [])
              worktree_fs (Raise FileNotFoundError) ["home"; "wt"; "src"])
    as [_ Hfallback].
  destruct (Hfallback I) as [_ Hpass].
  apply (Hpass ["home"; "wt"; "src"] ["home"; "wt"] ["src"]);
    try reflexivity.
  intros a more E Hlen.
  destruct a as [|x [|y [|z [|w a]]]]; simpl in Hlen; try lia;
    inversion E; subst; reflexivity.
Defined.

(** C9 in a worktree, started from a directory below its root. *)
Lemma fallback_accepts_any_git_entry_witness :
  detect_repo_root (fun p => Ok p) (fun _ => []) worktree_fs
    (Raise CalledProcessError) ["home"; "wt"; "src"]
  = Ok ["home"; "wt"].
Proof.
  apply (fallback_accepts_any_git_entry (fun p => Ok p) (fun _ => [])
           worktree_fs (Raise CalledProcessError) ["home"; "wt"; "src"]
           ["home"; "wt"; "src"]
           [["home"; "wt"; "src"]] [["home"]; []] ["home"; "wt"]
           (File ".git")).
  - exact I.
  - reflexivity.
  - reflexivity.
  - intros a [<- | []]. reflexivity.
  - reflexivity.
Defined.

(** C6 with [sub/] enumerated before [a.txt]. *)
Lemma render_tree_scenario_witness :
  render_tree ascii_lower byte_points "/tmp/demo"
    (Dir "demo" None [Dir "sub" None [File "b.txt"]; File "a.txt"])
  = Ok [ "demo/"; "├── sub/"; "│   └── b.txt"; "└── a.txt" ].
Proof.
  apply (render_tree_scenario ascii_lower byte_points "/tmp/demo" "demo").
  apply perm_swap.
Defined.

(** C7 at the directory [Zed] of the example project. *)
Lemma permission_denied_subdirectory_witness :
  let tree := rendering ascii_lower byte_points "/home/proj" project in
  list_children_sorted ascii_lower byte_points
    (Dir "Zed" (Some PermissionError) [File "q"]) = Ok [] /\
  exists s prefix is_last before after,
    In s (below tree) /\
    entry s = Dir "Zed" (Some PermissionError) [File "q"] /\
    line s = prefix +:+ branch_of is_last +:+ "Zed" +:+ "/" /\
    below s = [] /\
    preorder tree = before ++ s :: after /\
    ["proj/"; "├── sub/"; "│   └── b.txt"; "├── Zed/"; "├── a.txt";
     "└── DIR.txt"]
    = map line before ++ line s :: map line after.
Proof.
  apply (permission_denied_subdirectory ascii_lower byte_points
           "/home/proj" project _
           (rendering ascii_lower byte_points "/home/proj" project)
           [ File "a.txt";
             Dir "sub" None [File "b.txt"];
             Dir "node_modules" None [File "x.js"];
             File ".DS_Store";
             File "DIR.txt";
             Dir "Zed" (Some PermissionError) [File "q"] ]).
  - reflexivity.
  - left. reflexivity.
  - reflexivity.
  - do 5 right. left. reflexivity.
  - reflexivity.
Defined.

(** Entries whose sort keys are equal keep the order of the enumeration:
    the sort is stable. *)
Example enumeration_order_with_equal_keys :
  render_tree ascii_lower byte_points "/r"
    (Dir "r" None [File "README"; File "readme"])
  = Ok ["r/"; "├── README"; "└── readme"] /\
  render_tree ascii_lower byte_points "/r"
    (Dir "r" None [File "readme"; File "README"])
  = Ok ["r/"; "├── readme"; "└── README"].
Proof. split; reflexivity. Qed.

(** C8 at the example project, enumerated in two orders. *)
Lemma render_tree_idempotent_witness :
  render_tree ascii_lower byte_points "/home/proj" project_reordered
  = render_tree ascii_lower byte_points "/home/proj" project.
Proof.
  apply (render_tree_idempotent ascii_lower byte_points "/home/proj"
           project).
  apply (same_dir ascii_lower byte_points "proj" None _
           [ File "a.txt";
             Dir "sub" None [File "b.txt"];
             Dir "node_modules" None [File "x.js"];
             File ".DS_Store";
             File "DIR.txt";
             Dir "Zed" (Some PermissionError) [File "q"] ]).
  - repeat (apply List.Forall2_cons || apply List.Forall2_nil);
      try apply same_file;
      (eapply same_dir; [| left; reflexivity]);
      repeat (apply List.Forall2_cons || apply List.Forall2_nil);
      apply same_file.
  - right. split; [apply perm_swap |]. split; [reflexivity |].
    vm_compute.
    repeat (apply List.NoDup_cons; [simpl; intuition discriminate |]).
    apply List.NoDup_nil.
Defined.

(** C10: a [DIR.txt] inside an ignored directory has no line. *)
Lemma dir_txt_in_ignored_directory :
  lookup stale_output ["node_modules"; "DIR.txt"]
  = Ok (Some (File "DIR.txt")) /\
  render_tree ascii_lower byte_points "/r" stale_output = Ok ["r/"].
Proof. split; reflexivity. Qed.

(** C10 at the root of the example project. *)
Lemma dir_txt_is_rendered_witness :
  exists s prefix is_last,
    In s (below (rendering ascii_lower byte_points "/home/proj" project)) /\
    entry s = File "DIR.txt" /\
    line s = prefix +:+ branch_of is_last +:+ "DIR.txt" /\
    In (line s)
      ["proj/"; "├── sub/"; "│   └── b.txt"; "├── Zed/"; "├── a.txt";
       "└── DIR.txt"].
Proof.
  apply (dir_txt_is_rendered ascii_lower byte_points "/home/proj" project _
           (rendering ascii_lower byte_points "/home/proj" project)
           [ File "a.txt";
             Dir "sub" None [File "b.txt"];
             Dir "node_modules" None [File "x.js"];
             File ".DS_Store";
             File "DIR.txt";
             Dir "Zed" (Some PermissionError) [File "q"] ]).
  - reflexivity.
  - left. reflexivity.
  - reflexivity.
  - do 4 right. left. reflexivity.
Defined.

(** ** The further properties *)

(** X1 at the root of the example project. *)
Lemma list_children_sorted_permutation_witness :
  exists cs,
    list_children_sorted ascii_lower byte_points project = Ok cs /\
    Permutation cs
      (visible [ File "a.txt";
                 Dir "sub" None [File "b.txt"];
                 Dir "node_modules" None [File "x.js"];
                 File ".DS_Store";
                 File "DIR.txt";
                 Dir "Zed" (Some PermissionError) [File "q"] ]).
Proof.
  exact (list_children_sorted_permutation ascii_lower byte_points project
           _ eq_refl).
Defined.

(** X2 for two files whose names differ in case only. *)
Lemma list_children_sorted_stable_witness :
  let same_key c :=
    bool_decide (sort_key ascii_lower byte_points c
                 = Ok (1%Z, byte_points "readme")) in
  List.filter same_key
    [Dir "src" None []; File "README"; File "readme"; File "z"]
  = List.filter same_key
      (visible [File "z"; File "README"; Dir "src" None []; File "readme"]).
Proof.
  apply (list_children_sorted_stable ascii_lower byte_points
           (Dir "r" None
              [File "z"; File "README"; Dir "src" None []; File "readme"])
           [File "z"; File "README"; Dir "src" None []; File "readme"]);
    reflexivity.
Defined.

(** X3 at the directory [sub] of the example project, walked below lines
    already collected. *)
Lemma walk_appends_prefixed_lines_witness :
  exists added,
    ["proj/"; "├── sub/"; "│   └── b.txt"]
    = ["proj/"; "├── sub/"] ++ added /\
    List.Forall (fun l => startswith l "│   " = true) added.
Proof.
  apply (walk_appends_prefixed_lines ascii_lower byte_points
           (Dir "sub" None [File "b.txt"]) "│   " ["proj/"; "├── sub/"]).
  reflexivity.
Defined.

(** X4 at the example project. *)
Lemma rendered_line_indentation_witness :
  let lines := ["proj/"; "├── sub/"; "│   └── b.txt"; "├── Zed/"; "├── a.txt";
                "└── DIR.txt"] in
  let below_root := forest ascii_lower byte_points project "" in
  lines = (root_name "/home/proj" project +:+ "/")
          :: map (fun x => line (snd x)) (placed_forest [] below_root) /\
  forall above last s,
    In (above, last, s) (placed_forest [] below_root) ->
    line s = indentation above
             +:+ (if last then "└── " else "├── ")
             +:+ name (entry s)
             +:+ match is_dir (entry s) with Ok true => "/" | _ => "" end.
Proof.
  apply (rendered_line_indentation ascii_lower byte_points "/home/proj"
           project).
  reflexivity.
Defined.

(** The places of the entries of the example project: [b.txt] lies below
    [sub], which is not the last child of the root. *)
Example placed_project :
  map (fun x => (fst x, line (snd x)))
    (placed_forest [] (forest ascii_lower byte_points project ""))
  = [ ([], false, "├── sub/");
      ([false], true, "│   └── b.txt");
      ([], false, "├── Zed/");
      ([], false, "├── a.txt");
      ([], true, "└── DIR.txt") ].
Proof. reflexivity. Qed.

(** X5 at the root of the example project. *)
Lemma corner_glyph_on_last_child_witness :
  let tree := rendering ascii_lower byte_points "/home/proj" project in
  ["proj/"; "├── sub/"; "│   └── b.txt"; "├── Zed/"; "├── a.txt";
   "└── DIR.txt"]
  = map line (preorder tree) /\
  exists prefix,
    forall i b,
      nth_error (below tree) i = Some b ->
      line b = match is_dir (entry b) with
               | Ok true =>
                   prefix +:+ branch_of (Nat.eqb (S i) (length (below tree)))
                   +:+ name (entry b) +:+ "/"
               | _ =>
                   prefix +:+ branch_of (Nat.eqb (S i) (length (below tree)))
                   +:+ name (entry b)
               end.
Proof.
  apply (corner_glyph_on_last_child ascii_lower byte_points "/home/proj"
           project).
  - reflexivity.
  - left. reflexivity.
Defined.

(** X6 for a file that carries the name of an ignored directory, next to
    hidden entries. *)
Lemma non_ignored_entry_is_rendered_witness :
  exists s,
    In s (below (rendering ascii_lower byte_points "/r"
                   (Dir "r" None
                      [File ".gitignore"; File "build";
                       Dir ".github" None []]))) /\
    entry s = File "build" /\
    In (line s) ["r/"; "├── .github/"; "├── .gitignore"; "└── build"].
Proof.
  apply (non_ignored_entry_is_rendered ascii_lower byte_points "/r"
           (Dir "r" None
              [File ".gitignore"; File "build"; Dir ".github" None []])
           _ _ [File ".gitignore"; File "build"; Dir ".github" None []]).
  - reflexivity.
  - left. reflexivity.
  - reflexivity.
  - right. left. reflexivity.
  - discriminate.
  - intros _.
    now apply (bool_decide_eq_false_1 ("build" ∈ DEFAULT_IGNORE_FILES)).
Defined.


(** X8 in a worktree, started two directories below its root. *)
Lemma detect_repo_root_fallback_result_witness :
  exists cur,
    Ok ["home"; "wt"; "src"] = Ok cur /\
    (exists rest, cur = ["home"; "wt"] ++ rest) /\
    ((path_exists worktree_fs (joinpath ["home"; "wt"] ".git") = Ok true /\
      forall a rest,
        cur = a ++ rest -> (length ["home"; "wt"] < length a)%nat ->
        path_exists worktree_fs (joinpath a ".git") = Ok false) \/
     (["home"; "wt"] = cur /\
      forall a rest,
        cur = a ++ rest ->
        path_exists worktree_fs (joinpath a ".git") = Ok false)).
Proof.
  apply (detect_repo_root_fallback_result (fun p => Ok p) (fun _ => [])
           worktree_fs (Raise CalledProcessError) ["home"; "wt"; "src"]
           ["home"; "wt"]).
  - exact I.
  - reflexivity.
Defined.

(** X10 for a tree of two lines. *)
Lemma file_content_keeps_lines_witness :
  file_content (["r/"] ++ ["└── a.txt"])
  = String.concat newline (["r/"] ++ ["└── a.txt"]) +:+ newline.
Proof.
  apply (file_content_keeps_lines ["r/"] "└── a.txt").
  - discriminate.
  - intros (b & t & E & Ht).
    assert (forall x c, "└── a.txt" = x +:+ String c "" -> c = "t"%char)
      as Hlast.
    { intros x c Hx.
      change ("└── a.tx" +:+ String "t" "" = x +:+ String c "") in Hx.
      now apply snoc_inj in Hx as [_ <-]. }
    destruct Ht as [(a & -> & Ha) | [(a & c & -> & Hac) | (a & c & d & -> & Hd)]].
    + rewrite (Hlast b a E) in Ha. discriminate.
    + change (b +:+ String a (String c ""))
        with (b +:+ (String a "" +:+ String c "")) in E.
      rewrite <- append_assoc in E.
      rewrite (Hlast _ c E) in Hac.
      apply andb_true_iff in Hac as [_ Hac]. discriminate.
    + change (b +:+ String a (String c (String d "")))
        with (b +:+ (String a (String c "") +:+ String d "")) in E.
      rewrite <- append_assoc in E.
      rewrite (Hlast _ d E) in Hd.
      destruct (space3_bytes _ _ _ Hd) as (_ & _ & Hbyte).
      vm_compute in Hbyte. lia.
Defined.

(** A name that ends with a blank loses it when it is the last line. *)
Example file_content_strips_last_name :
  file_content ["r/"; "└── a "] = "r/" +:+ newline +:+ "└── a" +:+ newline.
Proof. reflexivity. Qed.
